(** * validate_ip: a dotted-decimal IPv4 validator (validate-ip.c)

    The C function [validate_ip] is embedded over an explicit store:
    memory is a list of blocks, a pointer is a block and an offset, and
    every C library call the function makes ([strlen], [strcpy],
    [isdigit], [strtok], [atoi], [sprintf], [strcmp]) is a definition on
    that store.  A computation either yields a value and a new state or
    is undefined (an access outside a block, a read of an indeterminate
    byte), which is [None].

    Platform conventions: [int] is 32 bits, two's complement, [size_t]
    is 64 bits, and a conversion to [int] of a value that does not fit
    keeps the low 32 bits; [isdigit] is the one of the "C" locale and is
    defined on every byte.  What [atoi] returns for a numeral outside
    [int] is left open: it is the section variable [atoi_overflow].

    The file has three layers: the program on the store, a functional
    model of it on strings ([verdict]), and the proof that the first
    computes the second ([validate_ip_refines]); the properties are
    proved on the model and stated on the program. *)

From Stdlib Require Import ZArith Ascii String Lia.
From stdpp Require Import base option list.

Local Open Scope Z_scope.

(** ** Machine integers *)

Definition INT_MIN : Z := - 2 ^ 31.
Definition INT_MAX : Z := 2 ^ 31 - 1.

(** Conversion to [int]: the low 32 bits, read as a signed number. *)
Definition to_int (z : Z) : Z := (z + 2 ^ 31) mod 2 ^ 32 - 2 ^ 31.

Definition in_int (z : Z) : bool := (INT_MIN <=? z) && (z <=? INT_MAX).

(** ** Characters *)

Definition NUL : ascii := Ascii.zero.

Definition code (c : ascii) : Z := Z.of_nat (nat_of_ascii c).

(** [isdigit] of <ctype.h>. *)
Definition isdigit (c : ascii) : bool := (48 <=? code c) && (code c <=? 57).

(** [isspace] of <ctype.h>: space, and \t \n \v \f \r. *)
Definition isspace (c : ascii) : bool :=
  (code c =? 32) || ((9 <=? code c) && (code c <=? 13)).

Definition is_dot (c : ascii) : bool := Ascii.eqb c "."%char.

(** ** The store *)

Definition block := nat.

Record ptr := Ptr { ptr_block : block; ptr_ofs : nat }.

Definition ptr_add (p : ptr) (n : nat) : ptr :=
  Ptr (ptr_block p) (ptr_ofs p + n).

(** A byte of memory holds a character or is indeterminate ([None]), as
    the bytes of a local array are before they are written. *)
Abbreviation cell := (option ascii).
Abbreviation mem := (list (list (option ascii))).

Definition mem_load (m : mem) (p : ptr) : option ascii :=
  match m !! ptr_block p with
  | Some b => match b !! ptr_ofs p with
              | Some (Some c) => Some c
              | _ => None
              end
  | None => None
  end.

Definition mem_store (m : mem) (p : ptr) (c : ascii) : option mem :=
  match m !! ptr_block p with
  | Some b => if decide (ptr_ofs p < length b)%nat
              then Some (<[ptr_block p := <[ptr_ofs p := Some c]> b]> m)
              else None
  | None => None
  end.

(** The characters from a cell on, up to the first NUL (excluded);
    undefined when the cells end, or an indeterminate one comes, first. *)
Fixpoint scan_string (cs : list cell) : option (list ascii) :=
  match cs with
  | Some c :: r =>
      if Ascii.eqb c NUL then Some []
      else match scan_string r with
           | Some s => Some (c :: s)
           | None => None
           end
  | _ => None
  end.

(** The NUL-terminated string a pointer points to. *)
Definition mem_string (m : mem) (p : ptr) : option (list ascii) :=
  match m !! ptr_block p with
  | Some b => scan_string (drop (ptr_ofs p) b)
  | None => None
  end.

(** Consecutive stores of the characters of [cs] from [p] on. *)
Fixpoint mem_write (m : mem) (p : ptr) (cs : list ascii) : option mem :=
  match cs with
  | [] => Some m
  | c :: r => match mem_store m p c with
              | Some m' => mem_write m' (ptr_add p 1) r
              | None => None
              end
  end.

(** ** Program state and computations *)

Record state := State {
  st_mem : mem;
  (** the static pointer [strtok] keeps between calls; [None] is NULL *)
  strtok_olds : option ptr;
  (** ghost: the numerals [atoi] has been called on, oldest first *)
  atoi_log : list (list ascii)
}.

Definition set_mem (st : state) (m : mem) : state :=
  State m (strtok_olds st) (atoi_log st).

Definition set_olds (st : state) (o : option ptr) : state :=
  State (st_mem st) o (atoi_log st).

Definition M (A : Type) : Type := state -> option (A * state).

Definition ret {A} (a : A) : M A := fun st => Some (a, st).

Definition bind {A B} (c : M A) (k : A -> M B) : M B :=
  fun st => match c st with
            | Some (a, st') => k a st'
            | None => None
            end.

Definition lift {A} (f : mem -> option A) : M A :=
  fun st => match f (st_mem st) with
            | Some a => Some (a, st)
            | None => None
            end.

Definition update (f : mem -> option mem) : M unit :=
  fun st => match f (st_mem st) with
            | Some m => Some (tt, set_mem st m)
            | None => None
            end.

Notation "'do' x <- c ; k" := (bind c (fun x => k))
  (at level 10, x name, c at level 100, k at level 200).
Notation "c ;; k" := (bind c (fun _ => k))
  (at level 100, k at level 200, right associativity).

(** A statement either falls through with a value or returns from the
    function. *)
Inductive flow (A : Type) : Type :=
  | Next (a : A)
  | Return (v : Z).
Arguments Next {A} a.
Arguments Return {A} v.

(** A local array: a fresh block of [n] indeterminate bytes. *)
Definition alloca (n : nat) : M ptr :=
  fun st => Some (Ptr (length (st_mem st)) 0,
                  set_mem st (st_mem st ++ [replicate n None])).

(** Runs a function body and releases the blocks it allocated. *)
Definition call {A} (body : M A) : M A :=
  fun st => match body st with
            | Some (a, st') =>
                Some (a, set_mem st' (take (length (st_mem st)) (st_mem st')))
            | None => None
            end.

(** ** The C library *)

Definition load (p : ptr) : M ascii := lift (fun m => mem_load m p).

Definition strlen (s : ptr) : M nat :=
  lift (fun m => length <$> mem_string m s).

Definition strcpy (dst src : ptr) : M unit :=
  do s <- lift (fun m => mem_string m src);
  update (fun m => mem_write m dst (s ++ [NUL])).

(** [strspn]: the length of the longest prefix made of characters of
    [accept]; [strcspn]: of characters not in [reject]. *)
Definition in_set (set : list ascii) (c : ascii) : bool :=
  existsb (Ascii.eqb c) set.
Arguments in_set : simpl never.

Fixpoint strspn (s accept : list ascii) : nat :=
  match s with
  | c :: r => if in_set accept c then S (strspn r accept) else O
  | [] => O
  end.

Fixpoint strcspn (s reject : list ascii) : nat :=
  match s with
  | c :: r => if in_set reject c then O else S (strcspn r reject)
  | [] => O
  end.

(** [strtok]: continues from the saved pointer when [str] is NULL
    (undefined when nothing was saved), skips leading delimiters, and
    ends the token by overwriting the delimiter after it with NUL.
    Returns NULL when only delimiters are left. *)
Definition strtok (str : option ptr) (delim : list ascii) : M (option ptr) :=
  fun st =>
    match (match str with Some p => Some p | None => strtok_olds st end) with
    | None => None
    | Some s =>
        match mem_string (st_mem st) s with
        | None => None
        | Some cs =>
            let k := strspn cs delim in
            let s1 := ptr_add s k in
            let cs1 := drop k cs in
            match cs1 with
            | [] => Some (None, set_olds st (Some s1))
            | _ :: _ =>
                let n := strcspn cs1 delim in
                let e := ptr_add s1 n in
                if decide (n = length cs1)
                then Some (Some s1, set_olds st (Some e))
                else match mem_store (st_mem st) e NUL with
                     | Some m' =>
                         Some (Some s1,
                               set_olds (set_mem st m') (Some (ptr_add e 1)))
                     | None => None
                     end
            end
        end
    end.

(** The value of the longest prefix of decimal digits, after [acc]. *)
Fixpoint digits_value (acc : Z) (cs : list ascii) : Z :=
  match cs with
  | c :: r => if isdigit c then digits_value (10 * acc + (code c - 48)) r
              else acc
  | [] => acc
  end.

Fixpoint skip_space (cs : list ascii) : list ascii :=
  match cs with
  | c :: r => if isspace c then skip_space r else cs
  | [] => []
  end.

(** The number a string denotes for [atoi]: white space, an optional
    sign, then digits up to the first character that is not one. *)
Definition atoi_value (cs : list ascii) : Z :=
  match skip_space cs with
  | c :: r => if Ascii.eqb c "-"%char then - digits_value 0 r
              else if Ascii.eqb c "+"%char then digits_value 0 r
              else digits_value 0 (c :: r)
  | [] => 0
  end.

(** The decimal digits of a non-negative number, most significant
    first, in front of [acc]; an [int] has at most ten. *)
Fixpoint digits_of (fuel : nat) (n : Z) (acc : list ascii) : list ascii :=
  match fuel with
  | O => acc
  | S f =>
      let acc' := ascii_of_nat (Z.to_nat (48 + n mod 10)) :: acc in
      if n / 10 =? 0 then acc' else digits_of f (n / 10) acc'
  end.

(** What the conversion "%d" prints for an [int]. *)
Definition decimal (n : Z) : list ascii :=
  if n <? 0 then "-"%char :: digits_of 10 (- n) [] else digits_of 10 n [].

(** [strcmp]: zero when equal, else the difference of the first two
    characters (as unsigned bytes) that differ. *)
Fixpoint strcmp_value (a b : list ascii) : Z :=
  match a, b with
  | [], [] => 0
  | [], y :: _ => - code y
  | x :: _, [] => code x
  | x :: a', y :: b' => if Ascii.eqb x y then strcmp_value a' b'
                        else code x - code y
  end.

Definition strcmp (s1 s2 : ptr) : M Z :=
  do a <- lift (fun m => mem_string m s1);
  do b <- lift (fun m => mem_string m s2);
  ret (strcmp_value a b).

(** [sprintf (buf, "%d", n)]. *)
Definition sprintf_d (buf : ptr) (n : Z) : M Z :=
  update (fun m => mem_write m buf (decimal n ++ [NUL]));;
  ret (Z.of_nat (length (decimal n))).

Section ValidateIp.

(** The [int] (before conversion) that [atoi] gives for a numeral whose
    value an [int] cannot hold; ISO C leaves it undefined. *)
Variable atoi_overflow : Z -> Z.

Definition atoi_result (cs : list ascii) : Z :=
  let v := atoi_value cs in
  if in_int v then v else to_int (atoi_overflow v).

Definition atoi (nptr : ptr) : M Z :=
  fun st =>
    match mem_string (st_mem st) nptr with
    | Some cs =>
        Some (atoi_result cs,
              State (st_mem st) (strtok_olds st) (atoi_log st ++ [cs]))
    | None => None
    end.

(** ** validate_ip *)

(** Lines 51-58, the first pass: [k] iterations are left, [i] is the
    index and [dot_count] the dots counted so far. *)
Fixpoint first_pass (k : nat) (ip : ptr) (i : nat) (dot_count : Z)
  : M (flow Z) :=
  match k with
  | O => ret (Next dot_count)
  | S k' =>
      do c <- load (ptr_add ip i);
      if is_dot c then first_pass k' ip (S i) (dot_count + 1)
      else if negb (isdigit c) then ret (Return 0)
      else first_pass k' ip (S i) dot_count
  end.

(** Lines 73-99, the checks of the loop body on one token. *)
Definition check_octet (token : ptr) : M (flow unit) :=
  do n <- strlen token;
  if (n =? 0)%nat then ret (Return 0) else
  do n <- strlen token;
  do zero <- (if (1 <? n)%nat
              then do c <- load token; ret (Ascii.eqb c "0"%char)
              else ret false);
  if zero then ret (Return 0) else
  do num <- atoi token;
  if (num <? 0) || (num >? 255) then ret (Return 0) else
  do temp <- alloca 4;
  sprintf_d temp num;;
  do r <- strcmp temp token;
  if negb (r =? 0) then ret (Return 0) else
  ret (Next tt).

(** Lines 71-104, the loop; it runs while [octet_count < 4], so four
    iterations of [fuel] are enough (running out of it is [None]). *)
Fixpoint octet_loop (fuel : nat) (token : option ptr) (octet_count : Z)
  : M (flow Z) :=
  match token with
  | Some tok =>
      if octet_count <? 4 then
        match fuel with
        | O => fun _ => None
        | S fuel' =>
            do r <- check_octet tok;
            match r with
            | Return v => ret (Return v)
            | Next _ =>
                do token' <- strtok None ["."%char];
                octet_loop fuel' token' (octet_count + 1)
            end
        end
      else ret (Next octet_count)
  | None => ret (Next octet_count)
  end.

Definition validate_ip_body (ip : ptr) : M Z :=
  do ip_copy <- alloca 16;
  do n <- strlen ip;
  let len := to_int (Z.of_nat n) in
  if (len <? 7) || (len >? 15) then ret 0 else
  strcpy ip_copy ip;;
  let ptr := ip_copy in
  do r <- first_pass (Z.to_nat len) ip 0 0;
  match r with
  | Return v => ret v
  | Next dot_count =>
      if negb (dot_count =? 3) then ret 0 else
      do token <- strtok (Some ptr) ["."%char];
      do r <- octet_loop 4 token 0;
      match r with
      | Return v => ret v
      | Next octet_count =>
          if negb (octet_count =? 4) then ret 0 else ret 1
      end
  end.

(** [ip] is [None] for a NULL pointer. *)
Definition validate_ip (ip : option ptr) : M Z :=
  match ip with
  | None => ret 0
  | Some p => call (validate_ip_body p)
  end.

End ValidateIp.

(** ** Functional model

    What [validate_ip] computes, as a function of the candidate string
    alone; [validate_ip_refines] below proves that the program on the
    store computes it. *)

(** The pieces between the dots, empty ones included. *)
Fixpoint segments (s : list ascii) : list (list ascii) :=
  match s with
  | [] => [[]]
  | c :: r =>
      if is_dot c then [] :: segments r
      else match segments r with
           | seg :: segs => (c :: seg) :: segs
           | [] => [[c]]
           end
  end.

Definition nonempty (seg : list ascii) : bool :=
  match seg with [] => false | _ :: _ => true end.

(** The tokens successive [strtok] calls with delimiter "." produce. *)
Definition tokens (s : list ascii) : list (list ascii) :=
  filter (fun seg => nonempty seg = true) (segments s).

Definition leading_zero (tok : list ascii) : bool :=
  (1 <? length tok)%nat &&
  match tok with c :: _ => Ascii.eqb c "0"%char | [] => false end.

Definition reaches_atoi (tok : list ascii) : bool :=
  negb (length tok =? 0)%nat && negb (leading_zero tok).

Fixpoint chars_pass (s : list ascii) (dot_count : Z) : flow Z :=
  match s with
  | [] => Next dot_count
  | c :: r =>
      if is_dot c then chars_pass r (dot_count + 1)
      else if negb (isdigit c) then Return 0
      else chars_pass r dot_count
  end.

Section FunctionalModel.

Variable atoi_overflow : Z -> Z.

Definition octet_ok (tok : list ascii) : bool :=
  reaches_atoi tok &&
  (let num := atoi_result atoi_overflow tok in
   negb ((num <? 0) || (num >? 255)) &&
   (strcmp_value (decimal num) tok =? 0)).

Fixpoint octets (toks : list (list ascii)) (octet_count : Z) : flow Z :=
  match toks with
  | tok :: rest =>
      if octet_count <? 4 then
        if octet_ok tok then octets rest (octet_count + 1) else Return 0
      else Next octet_count
  | [] => Next octet_count
  end.

(** The tokens of [toks] the loop hands to [atoi], in order. *)
Fixpoint octets_atoi (toks : list (list ascii)) (octet_count : Z)
  : list (list ascii) :=
  match toks with
  | tok :: rest =>
      if octet_count <? 4 then
        (if reaches_atoi tok then [tok] else []) ++
        (if octet_ok tok then octets_atoi rest (octet_count + 1) else [])
      else []
  | [] => []
  end.

Definition verdict (s : list ascii) : Z :=
  let len := Z.of_nat (length s) in
  if (len <? 7) || (len >? 15) then 0 else
  match chars_pass s 0 with
  | Return v => v
  | Next dot_count =>
      if negb (dot_count =? 3) then 0 else
      match octets (tokens s) 0 with
      | Return v => v
      | Next octet_count => if negb (octet_count =? 4) then 0 else 1
      end
  end.

Definition atoi_calls (s : list ascii) : list (list ascii) :=
  let len := Z.of_nat (length s) in
  if (len <? 7) || (len >? 15) then [] else
  match chars_pass s 0 with
  | Return _ => []
  | Next dot_count =>
      if negb (dot_count =? 3) then [] else octets_atoi (tokens s) 0
  end.

End FunctionalModel.

(** ** Notions the properties are stated with *)

(** The largest length that 32 bits hold.  Up to it the conversion of
    [int len = strlen (ip)] is harmless: a length of 2^31 or more
    becomes a negative [len], which the length gate turns down.  Beyond
    it the low 32 bits of the length decide; [validate_ip_wraps_length]
    is about such strings. *)
Definition UINT_MAX : Z := 2 ^ 32 - 1.

(** [ip] points to the NUL-terminated string [s], the candidate, of a
    length within [UINT_MAX]. *)
Definition c_string (st : state) (ip : ptr) (s : list ascii) : Prop :=
  mem_string (st_mem st) ip = Some s /\ Z.of_nat (length s) <= UINT_MAX.

(** The value a segment has as an unsigned decimal numeral, if it is
    one: not empty, and digits only. *)
Definition numeral_value (seg : list ascii) : option Z :=
  if nonempty seg && forallb isdigit seg then Some (digits_value 0 seg)
  else None.

(** a.b.c.d with each number in canonical decimal form. *)
Definition dotted (a b c d : Z) : list ascii :=
  decimal a ++ "."%char :: decimal b ++ "."%char :: decimal c ++
  "."%char :: decimal d.

Definition count_dots (s : list ascii) : nat :=
  length (filter (fun c => is_dot c = true) s).

(** The characters the first pass lets through. *)
Definition allowed (c : ascii) : bool := is_dot c || isdigit c.

(** A run that does not fault and returns [v]. *)
Definition returns (r : option (Z * state)) (v : Z) : Prop :=
  exists st', r = Some (v, st').

Definition octet_values : list Z := seqZ 0 256.

(** The loop invariant of the second pass: [token] is the current token
    and [toks] lists it and the tokens still to come; all of them live in
    block [k], the working copy, where [strtok]'s saved pointer points to
    what is left of the string after the current token. *)
Definition tok_state (k : block) (st : state) (token : option ptr)
    (toks : list (list ascii)) : Prop :=
  match token, toks with
  | None, [] => True
  | Some tok, t :: rest =>
      ptr_block tok = k /\ mem_string (st_mem st) tok = Some t /\
      exists olds cs,
        strtok_olds st = Some olds /\ ptr_block olds = k /\
        mem_string (st_mem st) olds = Some cs /\ tokens cs = rest
  | _, _ => False
  end.

(** ** Running the program on examples *)

(** An [atoi] that keeps the low 32 bits of a value too large for an
    [int] (the result of accumulating the digits in an [int]). *)
Definition atoi_wraps (v : Z) : Z := v.

(** A store whose only block holds the string [s]. *)
Definition store_of (s : string) : state :=
  State [(Some <$> list_ascii_of_string s) ++ [Some NUL]] None [].

(** The pointer to the string of [store_of]. *)
Definition candidate : ptr := Ptr 0%nat 0%nat.

Definition run (s : string) : option (Z * state) :=
  validate_ip atoi_wraps (Some candidate) (store_of s).

(** The segments put back together, a dot between two of them. *)
Fixpoint join_dots (segs : list (list ascii)) : list ascii :=
  match segs with
  | [] => []
  | seg :: rest =>
      match rest with
      | [] => seg
      | _ :: _ => seg ++ "."%char :: join_dots rest
      end
  end.

(** The candidates that get past lines 35-63: the length gate, the
    first pass and the count of dots. *)
Definition gates_pass (s : list ascii) : bool :=
  (7 <=? length s)%nat && (length s <=? 15)%nat &&
  forallb allowed s && (count_dots s =? 3)%nat.

(** ** main: the interactive loop (lines 130-195)

    The program's world is its state, what is left of standard input and
    what it has written to standard output. *)

Definition NL : ascii := "010"%char.

Record world := World {
  w_state : state;
  w_stdin : list ascii;
  w_stdout : list ascii
}.

Definition IO (A : Type) : Type := world -> option (A * world).

Definition io_ret {A} (a : A) : IO A := fun w => Some (a, w).

Definition io_bind {A B} (c : IO A) (k : A -> IO B) : IO B :=
  fun w => match c w with
           | Some (a, w') => k a w'
           | None => None
           end.

Notation "'io' x <- c ; k" := (io_bind c (fun x => k))
  (at level 10, x name, c at level 100, k at level 200).
Notation "c ;;; k" := (io_bind c (fun _ => k))
  (at level 100, k at level 200, right associativity).

(** A computation on the state, run in the world. *)
Definition on_state {A} (c : M A) : IO A :=
  fun w => match c (w_state w) with
           | Some (a, st') => Some (a, World st' (w_stdin w) (w_stdout w))
           | None => None
           end.

Definition text (s : string) : list ascii := list_ascii_of_string s.

(** The text of a line and its newline. *)
Definition line (s : string) : list ascii := text s ++ [NL].

(** [printf], on the characters its format expands to. *)
Definition printf (cs : list ascii) : IO unit :=
  fun w => Some (tt, World (w_state w) (w_stdin w) (w_stdout w ++ cs)).

(** What [fgets] takes from the input: at most [k] characters, and none
    after the first newline; with it, what it leaves. *)
Fixpoint fgets_line (k : nat) (input : list ascii)
  : list ascii * list ascii :=
  match k, input with
  | S k', c :: r =>
      if Ascii.eqb c NL then ([c], r)
      else let (l, rest) := fgets_line k' r in (c :: l, rest)
  | _, _ => ([], input)
  end.

(** [fgets (s, n, stdin)]: NULL, and [s] untouched, at the end of the
    input; else the characters taken and a NUL are stored at [s]. *)
Definition fgets (s : ptr) (n : nat) : IO (option ptr) :=
  fun w =>
    match w_stdin w with
    | [] => Some (None, w)
    | _ :: _ =>
        let (l, rest) := fgets_line (n - 1) (w_stdin w) in
        match mem_write (st_mem (w_state w)) s (l ++ [NUL]) with
        | Some m' =>
            Some (Some s, World (set_mem (w_state w) m') rest (w_stdout w))
        | None => None
        end
    end.

(** [scanf (" %c", &choice)]: skips white space and reads one
    character; at the end of the input [choice] keeps its value. *)
Definition scanf_space_c (choice : ascii) : IO ascii :=
  fun w =>
    match skip_space (w_stdin w) with
    | [] => Some (choice, World (w_state w) [] (w_stdout w))
    | c :: r => Some (c, World (w_state w) r (w_stdout w))
    end.

(** [getchar ()]: the next character, or EOF, which is -1. *)
Definition getchar : IO Z :=
  fun w =>
    match w_stdin w with
    | [] => Some (-1, w)
    | c :: r => Some (code c, World (w_state w) r (w_stdout w))
    end.

(** How a run of [main] ends. *)
Inductive outcome : Type :=
  | Exit (status : Z) (w : world)
  | Fault
  | OutOfFuel.

Section Main.

Variable atoi_overflow : Z -> Z.

(** Lines 150-153: the newline [fgets] stored is replaced by NUL. *)
Definition strip_newline (ip_input : ptr) : IO unit :=
  io n <- on_state (strlen ip_input);
  let len := to_int (Z.of_nat n) in
  io nl <- (if 0 <? len
            then io c <- on_state
                           (load (ptr_add ip_input (Z.to_nat (len - 1))));
                 io_ret (Ascii.eqb c NL)
            else io_ret false);
  if nl
  then on_state
         (update (fun m =>
            mem_store m (ptr_add ip_input (Z.to_nat (len - 1))) NUL))
  else io_ret tt.

(** Lines 156-167: the candidate is validated and the result shown. *)
Definition report (ip_input : ptr) : IO unit :=
  io result <- on_state (validate_ip atoi_overflow (Some ip_input));
  io s <- on_state (lift (fun m => mem_string m ip_input));
  printf (text "Result: '" ++ s ++ text "' is " ++
          (if result =? 0 then line "INVALID" else line "VALID"));;;
  if result =? 0
  then
    printf (line "Note: Valid IPv4 format is xxx.xxx.xxx.xxx where each xxx is 0-255");;;
    printf (line "      Examples: 192.168.1.1, 10.0.0.1, 255.255.255.0");;;
    printf (line "      Invalid examples: 256.1.1.1, 192.168.01.1, 192.168.1")
  else io_ret tt.

(** Lines 141-185, the body of the loop; [choice] is the variable of
    that name, and the value returned is its value after the body. *)
Definition main_iteration (ip_input : ptr) (choice : ascii) : IO ascii :=
  printf (text "Enter an IP address to validate: ");;;
  io r <- fgets ip_input 100;
  match r with
  | Some _ => strip_newline ip_input;;; report ip_input
  | None => printf (line "Error reading input.")
  end;;;
  printf (NL :: text "Do you want to validate another IP address? (y/n): ");;;
  io choice' <- scanf_space_c choice;
  getchar;;;
  printf [NL];;;
  io_ret choice'.

Definition again (choice : ascii) : bool :=
  Ascii.eqb choice "y"%char || Ascii.eqb choice "Y"%char.

(** Lines 140-188, the do-while loop, for at most [fuel] iterations. *)
Fixpoint main_loop (fuel : nat) (ip_input : ptr) (choice : ascii)
    (w : world) : outcome :=
  match fuel with
  | O => OutOfFuel
  | S fuel' =>
      match main_iteration ip_input choice w with
      | None => Fault
      | Some (choice', w') =>
          if again choice' then main_loop fuel' ip_input choice' w'
          else
            match printf (line "Thank you for using the IP Address Validator!") w' with
            | Some (_, w'') => Exit 0 w''
            | None => Fault
            end
      end
  end.

(** [main]; [choice] is declared without a value, and [garbage] is the
    character it happens to hold. *)
Definition main (garbage : ascii) (fuel : nat) (w : world) : outcome :=
  match (io ip_input <- on_state (alloca 100);
         printf (line "IP Address Validator");;;
         printf (line "====================" ++ [NL]);;;
         io_ret ip_input) w with
  | Some (ip_input, w') => main_loop fuel ip_input garbage w'
  | None => Fault
  end.

End Main.

(** The string a buffer holds for [strlen]: what comes before its first
    NUL. *)
Fixpoint until_nul (cs : list ascii) : list ascii :=
  match cs with
  | c :: r => if Ascii.eqb c NUL then [] else c :: until_nul r
  | [] => []
  end.

(** A string without its last character when that is a newline. *)
Definition chomp (u : list ascii) : list ascii :=
  match last u with
  | Some c => if Ascii.eqb c NL then take (length u - 1) u else u
  | None => u
  end.

(** [ip_input] is the array of 100 bytes [main] reads a line into. *)
Definition buffer_at (w : world) (ip_input : ptr) : Prop :=
  ptr_ofs ip_input = 0%nat /\
  exists b, st_mem (w_state w) !! ptr_block ip_input = Some b /\
            length b = 100%nat.

(** a.b.c.d with a, b, c, d of 0..255 in canonical decimal form. *)
Definition canonical_quad (s : list ascii) : Prop :=
  exists a b c d,
    (0 <= a <= 255 /\ 0 <= b <= 255 /\ 0 <= c <= 255 /\ 0 <= d <= 255) /\
    s = dotted a b c d.

(** A line as it is typed: no NUL, no newline inside, and short enough
    for [fgets] to take it whole, newline included. *)
Definition typed_line (l : list ascii) : Prop :=
  Forall (fun c => c <> NUL /\ c <> NL) l /\ (length l <= 98)%nat.

(** What [main] prints between reading a candidate and reading the
    answer, when the candidate is valid and when it is not. *)
Definition valid_text (cand : list ascii) : list ascii :=
  text "Enter an IP address to validate: " ++
  text "Result: '" ++ cand ++ text "' is " ++ line "VALID" ++
  NL :: text "Do you want to validate another IP address? (y/n): ".

Definition invalid_text (cand : list ascii) : list ascii :=
  text "Enter an IP address to validate: " ++
  text "Result: '" ++ cand ++ text "' is " ++ line "INVALID" ++
  line "Note: Valid IPv4 format is xxx.xxx.xxx.xxx where each xxx is 0-255" ++
  line "      Examples: 192.168.1.1, 10.0.0.1, 255.255.255.0" ++
  line "      Invalid examples: 256.1.1.1, 192.168.01.1, 192.168.1" ++
  NL :: text "Do you want to validate another IP address? (y/n): ".

(** What [main] prints when there is no line to read. *)
Definition eof_text : list ascii :=
  text "Enter an IP address to validate: " ++
  line "Error reading input." ++
  NL :: text "Do you want to validate another IP address? (y/n): ".

Definition banner_text : list ascii :=
  line "IP Address Validator" ++ line "====================" ++ [NL].

Definition goodbye_text : list ascii :=
  line "Thank you for using the IP Address Validator!".

(** A session at the terminal: the lines typed, each with the one
    character answered to the question that follows it. *)
Fixpoint session_input (turns : list (list ascii * ascii)) : list ascii :=
  match turns with
  | [] => []
  | (l, answer) :: rest => l ++ NL :: answer :: NL :: session_input rest
  end.

(** What such a session shows, turn after turn; [accepts] tells the
    lines the validator accepts. *)
Fixpoint session_output (accepts : list ascii -> bool)
    (turns : list (list ascii * ascii)) : list ascii :=
  match turns with
  | [] => []
  | (l, _) :: rest =>
      (if accepts l then valid_text l else invalid_text l) ++
      NL :: session_output accepts rest
  end.

(** A world that starts with an empty store and the input [input]. *)
Definition world_of (input : list ascii) : world :=
  World (State [] None []) input [].

(** A world whose store is one array of 100 bytes, not yet written, at
    [candidate]. *)
Definition buffer_world (input : list ascii) : world :=
  World (State [replicate 100 None] None []) input [].

(** A decision of [canonical_quad], by the functional model. *)
Definition is_canonical_quad (s : list ascii) : bool :=
  verdict atoi_wraps s =? 1.

(** A candidate of 2^32 + 7 characters, each the digit 1, and a store
    whose only block holds it, at [candidate].  (Never to be evaluated:
    a [nat] of that size is out of reach.) *)
Definition huge_length : nat := Z.to_nat (2 ^ 32 + 7).

Definition huge_string : list ascii := replicate huge_length "1"%char.

Definition huge_store : state :=
  State [(Some <$> huge_string) ++ [Some NUL]] None [].

(** Membership in, and strings of, a concrete store. *)
Ltac in_list := vm_compute; repeat (first [left; reflexivity | right]).

Ltac holds_string := split; [reflexivity | vm_compute; discriminate].

(** A typed line, and the buffer of [buffer_world]. *)
Ltac typed := split; [repeat constructor; discriminate | simpl; lia].

Ltac has_buffer :=
  split; [reflexivity | exists (replicate 100 None); split; reflexivity].

(** ** Facts about the store *)

Lemma eqb_NUL c : Ascii.eqb c NUL = false <-> c <> NUL.
Proof.
  destruct (Ascii.eqb_spec c NUL); split; congruence.
Qed.

Lemma scan_string_Some cs s :
  scan_string cs = Some s <->
  exists r, cs = (Some <$> s) ++ Some NUL :: r /\
            Forall (fun c => c <> NUL) s.
Proof.
  split.
  - revert s. induction cs as [|[c|] cs IH]; intros s H; simpl in H;
      try discriminate.
    destruct (Ascii.eqb_spec c NUL) as [->|Hc].
    + injection H as <-. exists cs. split; [reflexivity | constructor].
    + destruct (scan_string cs) as [s'|]; [|discriminate].
      injection H as <-. destruct (IH s' eq_refl) as (r & -> & Hs).
      exists r. split; [reflexivity | by constructor].
  - intros (r & -> & Hs). induction Hs as [|c s Hc Hs IH]; csimpl.
    + reflexivity.
    + apply eqb_NUL in Hc. rewrite Hc, IH. reflexivity.
Qed.

Lemma mem_string_Some m p s :
  mem_string m p = Some s <->
  exists b r, m !! ptr_block p = Some b /\
              drop (ptr_ofs p) b = (Some <$> s) ++ Some NUL :: r /\
              Forall (fun c => c <> NUL) s.
Proof.
  unfold mem_string. split.
  - destruct (m !! ptr_block p) as [b|]; [|discriminate].
    intros (r & Hr & Hs)%scan_string_Some. by exists b, r.
  - intros (b & r & -> & Hr & Hs). apply scan_string_Some. by exists r.
Qed.

Lemma mem_string_no_nul m p s :
  mem_string m p = Some s -> Forall (fun c => c <> NUL) s.
Proof. intros (b & r & _ & _ & H)%mem_string_Some. exact H. Qed.

(** The string at [p + i] is the rest of the string at [p]. *)
Lemma mem_string_add m p s i :
  mem_string m p = Some s -> (i <= length s)%nat ->
  mem_string m (ptr_add p i) = Some (drop i s).
Proof.
  intros (b & r & Hb & Hr & Hs)%mem_string_Some Hi.
  apply mem_string_Some. exists b, r. simpl. split; [exact Hb|]. split.
  - rewrite <- drop_drop, Hr, drop_app_le by (rewrite length_fmap; lia).
    by rewrite fmap_drop.
  - by apply Forall_drop.
Qed.

Lemma mem_string_load m p s :
  mem_string m p = Some s -> mem_load m p = Some (hd NUL s).
Proof.
  intros (b & r & Hb & Hr & _)%mem_string_Some. unfold mem_load.
  rewrite Hb. replace (b !! ptr_ofs p) with (drop (ptr_ofs p) b !! 0%nat)
    by (rewrite lookup_drop; f_equal; lia).
  rewrite Hr. by destruct s.
Qed.

Lemma mem_string_app m m' p s :
  mem_string m p = Some s -> mem_string (m ++ m') p = Some s.
Proof.
  unfold mem_string. destruct (m !! ptr_block p) as [b|] eqn:Hb;
    [|discriminate].
  by rewrite (lookup_app_l_Some _ _ _ _ Hb).
Qed.

(** Writing inside a block replaces that part of the block. *)
Lemma mem_write_block m b o l cs :
  m !! b = Some l -> (o + length cs <= length l)%nat ->
  mem_write m (Ptr b o) cs =
  Some (<[b := take o l ++ (Some <$> cs) ++ drop (o + length cs) l]> m).
Proof.
  revert m o l. induction cs as [|c cs IH]; intros m o l Hb Hlen; simpl.
  - rewrite Nat.add_0_r, take_drop. by rewrite list_insert_id.
  - simpl in Hlen. unfold mem_store. simpl. rewrite Hb.
    destruct (decide (o < length l)%nat); [|lia].
    unfold ptr_add. simpl.
    rewrite (IH _ (o + 1)%nat (<[o := Some c]> l)).
    + rewrite list_insert_insert_eq. do 2 f_equal.
      replace (o + 1)%nat with (S o) by lia.
      assert (Ho : (<[o:=Some c]> l) !! o = Some (Some c))
        by (apply list_lookup_insert_eq; lia).
      rewrite (take_S_r _ _ _ Ho), <- app_assoc.
      rewrite take_insert_ge by lia.
      rewrite drop_insert_lt by lia. csimpl.
      do 4 f_equal. lia.
    + apply list_lookup_insert_eq. by eapply lookup_lt_Some.
    + rewrite length_insert. lia.
Qed.

(** Writing a string into a fresh local array. *)
Lemma mem_write_fresh (m : mem) n cs :
  (length cs < n)%nat ->
  mem_write (m ++ [replicate n None]) (Ptr (length m) 0) (cs ++ [NUL]) =
  Some (m ++ [(Some <$> cs) ++ Some NUL :: replicate (n - S (length cs)) None]).
Proof.
  intros Hn.
  rewrite (mem_write_block _ _ _ (replicate n None)).
  - f_equal. rewrite insert_app_r_alt by lia. rewrite Nat.sub_diag. simpl.
    f_equal. f_equal. rewrite fmap_app, <- app_assoc. simpl. do 2 f_equal.
    rewrite drop_replicate, length_app. simpl. f_equal. lia.
  - rewrite lookup_app_r by lia. by rewrite Nat.sub_diag.
  - rewrite length_app, length_replicate. simpl. lia.
Qed.

Lemma mem_string_fresh (m : mem) cs r :
  Forall (fun c => c <> NUL) cs ->
  mem_string (m ++ [(Some <$> cs) ++ Some NUL :: r]) (Ptr (length m) 0)
  = Some cs.
Proof.
  intros Hcs. apply mem_string_Some. eexists _, r. simpl.
  rewrite lookup_app_r by lia. rewrite Nat.sub_diag. simpl. auto.
Qed.

(** [strtok]'s store: a NUL written inside a string cuts it in two. *)
Lemma mem_store_cut m p cs n :
  mem_string m p = Some cs -> (n < length cs)%nat ->
  exists m',
    mem_store m (ptr_add p n) NUL = Some m' /\
    mem_string m' p = Some (take n cs) /\
    mem_string m' (ptr_add p (S n)) = Some (drop (S n) cs) /\
    take (ptr_block p) m' = take (ptr_block p) m /\
    length m' = length m.
Proof.
  intros (b & r & Hb & Hr & Hs)%mem_string_Some Hn.
  assert (Hlen : (ptr_ofs p + n < length b)%nat).
  { apply (f_equal length) in Hr.
    rewrite length_drop, length_app, length_fmap in Hr. simpl in Hr. lia. }
  unfold mem_store. simpl. rewrite Hb.
  destruct (decide (ptr_ofs p + n < length b)%nat); [|lia].
  eexists. split; [reflexivity|].
  assert (Hblk : forall x, (<[ptr_block p := x]> m) !! ptr_block p = Some x).
  { intros x. apply list_lookup_insert_eq. by eapply lookup_lt_Some. }
  split; [|split; [|split]].
  - apply mem_string_Some.
    exists (<[ptr_ofs p + n:=Some NUL]> b)%nat,
      ((Some <$> drop (S n) cs) ++ Some NUL :: r).
    split; [apply Hblk|]. split.
    + rewrite drop_insert_ge by lia.
      rewrite Hr. replace (ptr_ofs p + n - ptr_ofs p)%nat with n by lia.
      rewrite insert_take_drop
        by (rewrite length_app, length_fmap; simpl; lia).
      rewrite take_app_le, drop_app_le by (rewrite length_fmap; lia).
      by rewrite fmap_take, fmap_drop.
    + by apply Forall_take.
  - apply mem_string_Some. eexists _, r. split; [apply Hblk|]. split.
    + simpl. rewrite drop_insert_lt by lia.
      replace (ptr_ofs p + S n)%nat with (ptr_ofs p + S n)%nat by lia.
      rewrite <- drop_drop, Hr.
      rewrite drop_app_le by (rewrite length_fmap; lia).
      by rewrite fmap_drop.
    + by apply Forall_drop.
  - by rewrite take_insert_ge by lia.
  - by rewrite length_insert.
Qed.

(** ** Tokens and segments *)

Lemma in_set_dot c : in_set ["."%char] c = is_dot c.
Proof. unfold in_set, is_dot. cbn. apply orb_false_r. Qed.

Lemma tokens_dot c r : is_dot c = true -> tokens (c :: r) = tokens r.
Proof. intros Hc. unfold tokens. simpl. rewrite Hc. reflexivity. Qed.

(** Skipping the leading dots does not change the tokens. *)
Lemma tokens_strspn cs :
  tokens (drop (strspn cs ["."%char]) cs) = tokens cs.
Proof.
  induction cs as [|c r IH]; simpl; [reflexivity|].
  rewrite in_set_dot. destruct (is_dot c) eqn:Hc; simpl.
  - by rewrite tokens_dot.
  - reflexivity.
Qed.

Lemma strspn_stops cs c r :
  drop (strspn cs ["."%char]) cs = c :: r -> is_dot c = false.
Proof.
  induction cs as [|x xs IH]; simpl; [discriminate|].
  rewrite in_set_dot. destruct (is_dot x) eqn:Hx; simpl.
  - exact IH.
  - intros [= <- _]. exact Hx.
Qed.

Lemma strspn_le cs set : (strspn cs set <= length cs)%nat.
Proof. induction cs; simpl; [lia|]. destruct (in_set set a); simpl; lia. Qed.

Lemma strcspn_le cs set : (strcspn cs set <= length cs)%nat.
Proof. induction cs; simpl; [lia|]. destruct (in_set set a); simpl; lia. Qed.

(** The first segment ends where [strcspn] stops. *)
Lemma segments_strcspn cs :
  let n := strcspn cs ["."%char] in
  segments cs =
  take n cs :: (if decide (n = length cs) then []
                else segments (drop (S n) cs)).
Proof.
  induction cs as [|c r IH]; simpl; [reflexivity|].
  rewrite in_set_dot. destruct (is_dot c) eqn:Hc; simpl.
  - reflexivity.
  - simpl in IH. rewrite IH. f_equal.
    destruct (decide (strcspn r ["."%char] = length r)),
      (decide (S (strcspn r ["."%char]) = S (length r)));
      try reflexivity; lia.
Qed.

(** One [strtok] step on the string [cs1], which starts with a
    character that is not a dot. *)
Lemma tokens_strcspn c r :
  is_dot c = false ->
  let n := strcspn (c :: r) ["."%char] in
  tokens (c :: r) = take n (c :: r) :: tokens (drop (S n) (c :: r)).
Proof.
  intros Hc n. unfold tokens at 1. rewrite segments_strcspn. fold n.
  assert (Hn : exists n', n = S n').
  { unfold n. simpl. rewrite in_set_dot, Hc. by eexists. }
  destruct Hn as [n' Hn].
  assert (Ht : take n (c :: r) = c :: take n' r) by (by rewrite Hn).
  rewrite Ht, filter_cons_True by reflexivity. f_equal.
  destruct (decide (n = length (c :: r))) as [e|e].
  - rewrite drop_ge by lia. reflexivity.
  - reflexivity.
Qed.

Lemma length_segments s : length (segments s) = S (count_dots s).
Proof.
  unfold count_dots. induction s as [|c r IH]; simpl; [reflexivity|].
  destruct (is_dot c) eqn:Hc.
  - rewrite filter_cons_True by exact Hc. simpl. by rewrite IH.
  - rewrite filter_cons_False by congruence.
    destruct (segments r); simpl in *; [discriminate | exact IH].
Qed.

Lemma length_tokens s : (length (tokens s) <= length (segments s))%nat.
Proof. apply length_filter. Qed.

Lemma tokens_In seg s :
  In seg (segments s) -> seg <> [] -> In seg (tokens s).
Proof.
  intros Hin Hne. apply list_elem_of_In, list_elem_of_filter.
  split; [|by apply list_elem_of_In]. by destruct seg.
Qed.

(** An empty segment makes the tokens fewer than the segments. *)
Lemma length_tokens_empty s :
  In [] (segments s) -> (length (tokens s) < length (segments s))%nat.
Proof.
  unfold tokens. generalize (segments s) as l.
  induction l as [|x l IH]; simpl; [tauto|].
  intros [->|Hin].
  - rewrite filter_cons_False by (simpl; congruence).
    pose proof (length_filter (fun seg => nonempty seg = true) l). lia.
  - specialize (IH Hin). destruct (nonempty x) eqn:Hx.
    + rewrite filter_cons_True by exact Hx. simpl. lia.
    + rewrite filter_cons_False by congruence. lia.
Qed.

(** ** Machine integers and canonical numerals *)

Lemma to_int_gate n :
  0 <= n <= UINT_MAX ->
  ((to_int n <? 7) || (to_int n >? 15)) = ((n <? 7) || (n >? 15)) /\
  (((n <? 7) || (n >? 15)) = false -> to_int n = n).
Proof.
  unfold UINT_MAX, to_int. intros Hn.
  destruct (Z_lt_le_dec n (2 ^ 31)) as [Hlt|Hge].
  - rewrite Z.mod_small by lia.
    replace (n + 2 ^ 31 - 2 ^ 31) with n by lia. auto.
  - replace ((n + 2 ^ 31) mod 2 ^ 32) with (n - 2 ^ 31).
    + split; [|lia].
      destruct (Z.ltb_spec (n - 2 ^ 31 - 2 ^ 31) 7); [|lia].
      destruct (Z.ltb_spec n 7); [reflexivity|].
      destruct (Z.gtb_spec n 15); [reflexivity|lia].
    + apply (Z.mod_unique_pos _ _ 1); lia.
Qed.

Lemma octet_values_forall (P : Z -> bool) :
  forallb P octet_values = true -> forall n, 0 <= n <= 255 -> P n = true.
Proof.
  intros H n Hn. rewrite forallb_forall in H. apply H.
  apply list_elem_of_In, elem_of_seqZ. lia.
Qed.

(** A canonical numeral of 0..255 fits the four bytes of [temp], has no
    NUL in it, holds digits only and no dot, is not empty, and denotes
    the number it was printed from. *)
Lemma decimal_octet n :
  0 <= n <= 255 ->
  (length (decimal n) < 4)%nat /\ Forall (fun c => c <> NUL) (decimal n) /\
  forallb isdigit (decimal n) = true /\
  forallb (fun c => negb (is_dot c)) (decimal n) = true /\
  nonempty (decimal n) = true /\
  digits_value 0 (decimal n) = n.
Proof.
  intros Hn.
  pose proof (octet_values_forall
    (fun n => (length (decimal n) <? 4)%nat &&
              forallb (fun c => negb (Ascii.eqb c NUL)) (decimal n) &&
              forallb isdigit (decimal n) &&
              forallb (fun c => negb (is_dot c)) (decimal n) &&
              nonempty (decimal n) &&
              (digits_value 0 (decimal n) =? n))
    ltac:(vm_compute; reflexivity) n Hn) as H.
  simpl in H.
  destruct (andb_prop _ _ H) as [H' Hval]. clear H.
  destruct (andb_prop _ _ H') as [H Hne]. clear H'.
  destruct (andb_prop _ _ H) as [H' Hdot]. clear H.
  destruct (andb_prop _ _ H') as [H Hdig]. clear H'.
  destruct (andb_prop _ _ H) as [Hlen Hnul]. clear H.
  repeat split; try assumption.
  - by apply Nat.ltb_lt.
  - apply Forall_forall. intros c Hc%list_elem_of_In.
    rewrite forallb_forall in Hnul. specialize (Hnul c Hc).
    apply eqb_NUL. by destruct (Ascii.eqb c NUL).
  - by apply Z.eqb_eq.
Qed.

(** Canonical form: no leading zero, and "0" for zero. *)
Lemma decimal_canonical n :
  0 <= n <= 255 ->
  leading_zero (decimal n) = false /\
  (n = 0 -> decimal n = ["0"%char]).
Proof.
  intros Hn. split; [|by intros ->].
  apply negb_true_iff.
  by apply (octet_values_forall
              (fun n => negb (leading_zero (decimal n)))).
Qed.

Lemma code_inj a b : code a = code b -> a = b.
Proof.
  unfold code. intros H%Nat2Z.inj.
  by rewrite <- (ascii_nat_embedding a), <- (ascii_nat_embedding b), H.
Qed.

Lemma code_NUL c : code c = 0 -> c = NUL.
Proof. intros H. apply code_inj. exact H. Qed.

(** [strcmp] returns zero on equal strings only. *)
Lemma strcmp_value_eq a b :
  Forall (fun c => c <> NUL) a -> Forall (fun c => c <> NUL) b ->
  strcmp_value a b = 0 -> a = b.
Proof.
  intros Ha. revert b. induction Ha as [|x a Hx Ha IH];
    intros b Hb; destruct Hb as [|y b Hy Hb]; simpl; intros H.
  - reflexivity.
  - exfalso. apply Hy, code_NUL. lia.
  - exfalso. by apply Hx, code_NUL.
  - destruct (Ascii.eqb_spec x y) as [->|Hxy].
    + f_equal. by apply IH.
    + exfalso. apply Hxy, code_inj. lia.
Qed.

(** ** The program computes the functional model *)

Lemma ptr_add_0 p : ptr_add p 0 = p.
Proof. destruct p. unfold ptr_add. simpl. f_equal. lia. Qed.

Lemma ptr_add_add p i j : ptr_add (ptr_add p i) j = ptr_add p (i + j).
Proof. unfold ptr_add. simpl. f_equal. lia. Qed.

(** The first pass reads the candidate and leaves the state alone. *)
Lemma first_pass_spec st ip r :
  forall i dot_count,
    mem_string (st_mem st) (ptr_add ip i) = Some r ->
    first_pass (length r) ip i dot_count st =
    Some (chars_pass r dot_count, st).
Proof.
  induction r as [|c r IH]; intros i dc Hr; simpl; [reflexivity|].
  unfold bind, load, lift. rewrite (mem_string_load _ _ _ Hr). simpl.
  assert (Hr' : mem_string (st_mem st) (ptr_add ip (S i)) = Some r).
  { replace (S i) with (i + 1)%nat by lia. rewrite <- ptr_add_add.
    by apply (mem_string_add _ _ _ 1) in Hr; [|simpl; lia]. }
  destruct (is_dot c); [by apply IH|].
  destruct (isdigit c); simpl; [by apply IH | reflexivity].
Qed.

(** A call of [strtok] on the working copy yields the next token and
    touches no block below the copy's. *)
Lemma strtok_spec st str s cs :
  match str with Some p => Some p | None => strtok_olds st end = Some s ->
  mem_string (st_mem st) s = Some cs ->
  exists token st',
    strtok str ["."%char] st = Some (token, st') /\
    atoi_log st' = atoi_log st /\
    length (st_mem st') = length (st_mem st) /\
    take (ptr_block s) (st_mem st') = take (ptr_block s) (st_mem st) /\
    tok_state (ptr_block s) st' token (tokens cs).
Proof.
  intros Hstr Hcs. unfold strtok. rewrite Hstr, Hcs.
  pose proof (strspn_le cs ["."%char]) as Hk.
  pose proof (mem_string_add _ _ _ _ Hcs Hk) as Hs1.
  rewrite <- (tokens_strspn cs).
  destruct (drop (strspn cs ["."%char]) cs) as [|c r] eqn:Hcs1.
  - eexists _, _. split; [reflexivity|]. simpl. auto.
  - pose proof (strspn_stops _ _ _ Hcs1) as Hc.
    rewrite (tokens_strcspn c r Hc).
    pose proof (strcspn_le (c :: r) ["."%char]) as Hn.
    set (n := strcspn (c :: r) ["."%char]) in *.
    set (s1 := ptr_add s (strspn cs ["."%char])) in *.
    destruct (decide (n = length (c :: r))) as [e|e].
    + eexists _, _. split; [reflexivity|]. simpl.
      repeat split; try reflexivity.
      * rewrite take_ge by lia. exact Hs1.
      * exists (ptr_add s1 n), []. repeat split.
        -- rewrite (mem_string_add _ _ _ n Hs1) by lia.
           by rewrite drop_ge by lia.
        -- by rewrite drop_ge by (simpl in *; lia).
    + destruct (mem_store_cut _ _ _ n Hs1) as (m' & Hst & Ht & Hr & Hf & Hl);
        [lia|].
      rewrite Hst. eexists _, _. split; [reflexivity|]. simpl.
      repeat split; try assumption.
      exists (ptr_add (ptr_add s1 n) 1), (drop (S n) (c :: r)).
      repeat split. rewrite ptr_add_add.
      by replace (n + 1)%nat with (S n) by lia.
Qed.

Section Refinement.

Variable atoi_overflow : Z -> Z.

(** The checks on one token: the verdict of [octet_ok]; the token goes
    to [atoi] when [reaches_atoi] says so; at most [temp] is added to the
    store. *)
Lemma check_octet_spec st token t :
  mem_string (st_mem st) token = Some t ->
  exists extra,
    check_octet atoi_overflow token st =
    Some (if octet_ok atoi_overflow t then Next tt else Return 0,
          State (st_mem st ++ extra) (strtok_olds st)
                (atoi_log st ++ if reaches_atoi t then [t] else [])).
Proof.
  intros Ht. destruct st as [m olds log]. simpl in Ht.
  unfold check_octet, octet_ok, reaches_atoi, leading_zero.
  unfold bind at 1. unfold strlen at 1, lift. simpl. rewrite Ht. simpl.
  destruct (length t =? 0)%nat eqn:Hlen; simpl.
  { exists []. by rewrite !app_nil_r. }
  unfold bind at 1. unfold strlen, lift. simpl. rewrite Ht. simpl.
  unfold bind at 1.
  assert (Hzero :
    (if (1 <? length t)%nat
     then bind (load token) (fun c => ret (Ascii.eqb c "0"%char))
     else ret false) (State m olds log) =
    Some ((1 <? length t)%nat &&
          match t with c :: _ => Ascii.eqb c "0"%char | [] => false end,
          State m olds log)).
  { destruct (1 <? length t)%nat; [|reflexivity].
    unfold bind, load, lift. simpl. rewrite (mem_string_load _ _ _ Ht).
    destruct t; [discriminate|reflexivity]. }
  rewrite Hzero. clear Hzero.
  destruct ((1 <? length t)%nat &&
            match t with c :: _ => Ascii.eqb c "0"%char | [] => false end);
    simpl.
  { exists []. by rewrite !app_nil_r. }
  unfold bind at 1. unfold atoi. simpl. rewrite Ht.
  set (num := atoi_result atoi_overflow t).
  destruct ((num <? 0) || (num >? 255)) eqn:Hrange; simpl.
  { exists []. by rewrite !app_nil_r. }
  assert (Hnum : 0 <= num <= 255).
  { apply orb_false_elim in Hrange as [H1 H2].
    apply Z.ltb_ge in H1. rewrite Z.gtb_ltb in H2. apply Z.ltb_ge in H2.
    lia. }
  destruct (decimal_octet num Hnum) as (Hlen4 & Hnul & _).
  unfold bind at 1. unfold alloca at 1. simpl.
  unfold bind at 1. unfold sprintf_d, bind, update. simpl.
  change [None; None; None; None] with (replicate 4 (@None ascii)).
  rewrite mem_write_fresh by exact Hlen4. simpl.
  unfold strcmp, bind, lift, ret, set_mem. simpl.
  rewrite (mem_string_fresh m _ _ Hnul). simpl.
  rewrite (mem_string_app _ _ _ _ Ht).
  eexists [_]. by destruct (strcmp_value (decimal num) t =? 0).
Qed.

Lemma octet_loop_unfold fuel token octet_count :
  octet_loop atoi_overflow fuel token octet_count =
  match token with
  | Some tok =>
      if octet_count <? 4 then
        match fuel with
        | O => fun _ => None
        | S fuel' =>
            do r <- check_octet atoi_overflow tok;
            match r with
            | Return v => ret (Return v)
            | Next _ =>
                do token' <- strtok None ["."%char];
                octet_loop atoi_overflow fuel' token' (octet_count + 1)
            end
        end
      else ret (Next octet_count)
  | None => ret (Next octet_count)
  end.
Proof. destruct fuel; reflexivity. Qed.

(** The second pass: the loop runs [octets] over the tokens, hands
    [octets_atoi] to [atoi], and leaves the blocks below the working
    copy as they are. *)
Lemma octet_loop_spec k toks :
  forall fuel token octet_count st,
    tok_state k st token toks ->
    (k < length (st_mem st))%nat ->
    (4 - octet_count <= Z.of_nat fuel) ->
    exists st',
      octet_loop atoi_overflow fuel token octet_count st =
      Some (octets atoi_overflow toks octet_count, st') /\
      atoi_log st' = atoi_log st ++ octets_atoi atoi_overflow toks octet_count /\
      take k (st_mem st') = take k (st_mem st).
Proof.
  induction toks as [|t rest IH]; intros fuel token oc st Hinv Hk Hfuel.
  - destruct token as [tok|]; [destruct Hinv|].
    rewrite octet_loop_unfold. simpl.
    eexists. split; [reflexivity|]. by rewrite app_nil_r.
  - destruct token as [tok|]; [|destruct Hinv].
    destruct Hinv as (Hblk & Ht & olds & cs & Holds & Hoblk & Hcs & Hrest).
    rewrite octet_loop_unfold. simpl. destruct (oc <? 4) eqn:Hoc.
    2:{ eexists. split; [reflexivity|]. by rewrite app_nil_r. }
    apply Z.ltb_lt in Hoc.
    destruct fuel as [|fuel]; [lia|].
    destruct (check_octet_spec st tok t Ht) as [extra Hchk].
    unfold bind at 1. rewrite Hchk.
    destruct (octet_ok atoi_overflow t).
    2:{ eexists. split; [reflexivity|]. simpl. rewrite app_nil_r.
        split; [reflexivity|]. apply take_app_le. lia. }
    set (st1 := State (st_mem st ++ extra) (strtok_olds st)
                      (atoi_log st ++ if reaches_atoi t then [t] else [])).
    destruct (strtok_spec st1 None olds cs) as
      (token' & st2 & Htok & Hlog & Hlen & Hframe & Hinv').
    { exact Holds. }
    { simpl. by apply mem_string_app. }
    unfold bind at 1. rewrite Htok. rewrite Hoblk, Hrest in *.
    destruct (IH fuel token' (oc + 1) st2 Hinv') as (st' & Hrun & Hlog' & Hfr').
    { rewrite Hlen. simpl. rewrite length_app. lia. }
    { lia. }
    exists st'. split; [exact Hrun|]. split.
    + rewrite Hlog', Hlog. simpl. by rewrite app_assoc.
    + rewrite Hfr', Hframe. simpl. apply take_app_le. lia.
Qed.

#[local] Arguments replicate : simpl never.
#[local] Arguments octet_loop : simpl never.
#[local] Arguments first_pass : simpl never.

(** [validate_ip] on a store where [ip] points to the string [s]: it
    does not fault, returns [verdict s], calls [atoi] on [atoi_calls s],
    and gives back the store it was given. *)
Lemma validate_ip_refines st ip s :
  c_string st ip s ->
  exists olds,
    validate_ip atoi_overflow (Some ip) st =
    Some (verdict atoi_overflow s,
          State (st_mem st) olds
                (atoi_log st ++ atoi_calls atoi_overflow s)).
Proof.
  intros [Hs Hsize]. destruct st as [m o log]. simpl in Hs |- *.
  unfold call, validate_ip_body, verdict, atoi_calls. simpl.
  unfold bind at 1. unfold alloca at 1. simpl.
  unfold bind at 1. unfold strlen, lift. simpl.
  rewrite (mem_string_app _ _ _ _ Hs). simpl.
  destruct (to_int_gate (Z.of_nat (length s))) as [Hgate Hlen]; [lia|].
  rewrite Hgate.
  destruct ((Z.of_nat (length s) <? 7) || (Z.of_nat (length s) >? 15))
    eqn:Hg; simpl.
  { exists o. unfold set_mem. simpl.
    by rewrite take_app_length, app_nil_r. }
  rewrite (Hlen eq_refl), Nat2Z.id. clear Hgate Hlen.
  apply orb_false_elim in Hg as [Hg7 Hg15].
  apply Z.ltb_ge in Hg7. rewrite Z.gtb_ltb in Hg15. apply Z.ltb_ge in Hg15.
  unfold bind at 1. unfold strcpy, bind, lift, update, set_mem. simpl.
  rewrite (mem_string_app _ _ _ _ Hs). simpl.
  rewrite (mem_write_fresh m 16 s) by lia. simpl.
  set (copy := (Some <$> s) ++ Some NUL :: replicate (15 - length s) None).
  set (st2 := State (m ++ [copy]) o log).
  rewrite (first_pass_spec st2 ip s 0 0)
    by (rewrite ptr_add_0; by apply mem_string_app).
  destruct (chars_pass s 0) as [dot_count|v]; simpl.
  2:{ exists o. by rewrite take_app_length, app_nil_r. }
  destruct (negb (dot_count =? 3)); simpl.
  { exists o. by rewrite take_app_length, app_nil_r. }
  destruct (strtok_spec st2 (Some (Ptr (length m) 0)) (Ptr (length m) 0) s)
    as (token & st3 & Htok & Hlog3 & Hlen3 & Hfr3 & Hinv); [reflexivity| |].
  { apply mem_string_fresh. by eapply mem_string_no_nul. }
  rewrite Htok. simpl in Hfr3, Hinv, Hlen3, Hlog3.
  destruct (octet_loop_spec (length m) (tokens s) 4 token 0 st3 Hinv)
    as (st' & Hrun & Hlog' & Hfr').
  { rewrite Hlen3, length_app. simpl. lia. }
  { simpl. lia. }
  rewrite Hrun. rewrite Hfr3, take_app_length in Hfr'.
  rewrite Hlog3 in Hlog'.
  exists (strtok_olds st').
  destruct (octets atoi_overflow (tokens s) 0) as [octet_count|v]; simpl.
  - destruct (negb (octet_count =? 4)); simpl; by rewrite Hfr', Hlog'.
  - by rewrite Hfr', Hlog'.
Qed.

End Refinement.

(** ** Facts about the functional model *)

Lemma chars_pass_spec s :
  forall dot_count,
    chars_pass s dot_count =
    if forallb allowed s
    then Next (dot_count + Z.of_nat (count_dots s))
    else Return 0.
Proof.
  unfold count_dots, allowed.
  induction s as [|c r IH]; intros dc; simpl.
  - f_equal. lia.
  - destruct (is_dot c) eqn:Hc; simpl.
    + rewrite IH, filter_cons_True by exact Hc.
      destruct (forallb _ r); [|reflexivity]. f_equal. simpl length. lia.
    + rewrite filter_cons_False by congruence.
      destruct (isdigit c); simpl; [apply IH | reflexivity].
Qed.

Lemma segments_app_dot x r :
  forallb (fun c => negb (is_dot c)) x = true ->
  segments (x ++ "."%char :: r) = x :: segments r.
Proof.
  induction x as [|c x IH]; simpl; [reflexivity|].
  intros [Hc Hx]%andb_prop. apply negb_true_iff in Hc.
  by rewrite Hc, (IH Hx).
Qed.

Lemma segments_no_dot x :
  forallb (fun c => negb (is_dot c)) x = true -> segments x = [x].
Proof.
  induction x as [|c x IH]; simpl; [reflexivity|].
  intros [Hc Hx]%andb_prop. apply negb_true_iff in Hc.
  by rewrite Hc, (IH Hx).
Qed.

(** The characters of a segment are characters of the string, and none
    is a dot. *)
Lemma segments_chars s :
  forall seg c, In seg (segments s) -> In c seg ->
                In c s /\ is_dot c = false.
Proof.
  induction s as [|x r IH]; simpl; intros seg c Hseg Hc.
  - destruct Hseg as [<-|[]]. destruct Hc.
  - destruct (is_dot x) eqn:Hx.
    + destruct Hseg as [<-|Hseg]; [destruct Hc|].
      destruct (IH seg c Hseg Hc). auto.
    + destruct (segments r) as [|seg0 segs] eqn:Hr.
      * destruct Hseg as [<-|[]]. destruct Hc as [<-|[]]. auto.
      * destruct Hseg as [<-|Hseg].
        -- destruct Hc as [<-|Hc]; [auto|].
           destruct (IH seg0 c (or_introl eq_refl) Hc). auto.
        -- destruct (IH seg c (or_intror Hseg) Hc). auto.
Qed.

(** The segments and the dots make up the whole string. *)
Lemma segments_length s :
  (length (concat (segments s)) + count_dots s)%nat = length s.
Proof.
  unfold count_dots. induction s as [|c r IH]; simpl; [reflexivity|].
  destruct (is_dot c) eqn:Hc.
  - rewrite filter_cons_True by exact Hc. simpl. lia.
  - rewrite filter_cons_False by congruence.
    destruct (segments r); simpl in *; lia.
Qed.

Section Verdict.

Variable atoi_overflow : Z -> Z.

Lemma octet_ok_reaches t :
  octet_ok atoi_overflow t = true -> reaches_atoi t = true.
Proof. unfold octet_ok. by intros [H _]%andb_prop. Qed.

(** A token passes the checks only if it is the canonical numeral of a
    number of 0..255. *)
Lemma octet_ok_decimal t :
  Forall (fun c => c <> NUL) t ->
  octet_ok atoi_overflow t = true ->
  exists n, 0 <= n <= 255 /\ t = decimal n.
Proof.
  unfold octet_ok. intros Ht [_ [Hrange Hcmp]%andb_prop]%andb_prop.
  set (num := atoi_result atoi_overflow t) in *.
  apply negb_true_iff, orb_false_elim in Hrange as [H1 H2].
  apply Z.ltb_ge in H1. rewrite Z.gtb_ltb in H2. apply Z.ltb_ge in H2.
  exists num. split; [lia|]. symmetry.
  apply strcmp_value_eq; [|exact Ht|by apply Z.eqb_eq].
  apply decimal_octet. lia.
Qed.

Lemma decimal_octet_ok n :
  0 <= n <= 255 -> octet_ok atoi_overflow (decimal n) = true.
Proof.
  apply (octet_values_forall
           (fun n => octet_ok atoi_overflow (decimal n))).
  vm_compute. reflexivity.
Qed.

(** When at most four tokens are left, the loop ends with a count of
    four only if all of them pass and exactly four are there. *)
Lemma octets_four toks :
  forall octet_count,
    octet_count + Z.of_nat (length toks) <= 4 ->
    octets atoi_overflow toks octet_count = Next 4 ->
    octet_count + Z.of_nat (length toks) = 4 /\
    Forall (fun t => octet_ok atoi_overflow t = true) toks.
Proof.
  induction toks as [|t rest IH]; simpl; intros oc Hlen H.
  - injection H as ->. split; [lia | constructor].
  - destruct (oc <? 4) eqn:Hoc.
    + destruct (octet_ok atoi_overflow t) eqn:Ht; [|discriminate].
      destruct (IH (oc + 1)) as [Hl Hall]; [lia | exact H |].
      split; [lia | by constructor].
    + apply Z.ltb_ge in Hoc. lia.
Qed.

Lemma octets_all toks :
  forall octet_count,
    octet_count + Z.of_nat (length toks) = 4 ->
    Forall (fun t => octet_ok atoi_overflow t = true) toks ->
    octets atoi_overflow toks octet_count = Next 4.
Proof.
  induction toks as [|t rest IH]; simpl; intros oc Hlen Hall.
  - f_equal. lia.
  - inversion Hall as [|? ? Ht Hrest]; subst.
    destruct (Z.ltb_spec oc 4); [|lia]. rewrite Ht. apply IH; [lia|exact Hrest].
Qed.

Lemma octets_atoi_incl toks :
  forall octet_count t,
    In t (octets_atoi atoi_overflow toks octet_count) -> In t toks.
Proof.
  induction toks as [|x rest IH]; simpl; intros oc t H; [exact H|].
  destruct (oc <? 4); [|destruct H].
  apply in_app_or in H as [H|H].
  - destruct (reaches_atoi x); [|destruct H]. destruct H as [<-|[]]. auto.
  - destruct (octet_ok atoi_overflow x); [|destruct H]. eauto.
Qed.

Lemma verdict_bool s :
  verdict atoi_overflow s = 0 \/ verdict atoi_overflow s = 1.
Proof.
  unfold verdict.
  destruct ((Z.of_nat (length s) <? 7) || (Z.of_nat (length s) >? 15));
    [auto|].
  rewrite chars_pass_spec. destruct (forallb allowed s); [|auto].
  destruct (negb _); [auto|].
  destruct (octets atoi_overflow (tokens s) 0) as [oc|v] eqn:Hoc.
  - destruct (negb (oc =? 4)); auto.
  - revert Hoc. generalize 0 at 1. generalize (tokens s) as toks.
    induction toks as [|t rest IH]; simpl; intros oc Hoc; [discriminate|].
    destruct (oc <? 4); [|discriminate].
    destruct (octet_ok atoi_overflow t); [eauto|].
    injection Hoc as <-. auto.
Qed.

(** What an accepted string looks like. *)
Lemma verdict_accepts s :
  verdict atoi_overflow s = 1 ->
  (7 <= length s <= 15)%nat /\
  forallb allowed s = true /\
  count_dots s = 3%nat /\
  length (segments s) = 4%nat /\
  Forall (fun seg => octet_ok atoi_overflow seg = true) (segments s).
Proof.
  unfold verdict.
  destruct (Z.ltb_spec (Z.of_nat (length s)) 7); [discriminate|].
  destruct (Z.gtb_spec (Z.of_nat (length s)) 15); [discriminate|]. simpl.
  rewrite chars_pass_spec.
  destruct (forallb allowed s); [|discriminate].
  destruct (Z.eqb_spec (0 + Z.of_nat (count_dots s)) 3) as [Hdots|];
    [|discriminate]. simpl.
  assert (Hsegs : length (segments s) = 4%nat)
    by (rewrite length_segments; lia).
  pose proof (length_tokens s) as Hle.
  destruct (octets atoi_overflow (tokens s) 0) as [oc|v] eqn:Hoc.
  2:{ intros ->. exfalso. revert Hoc. generalize 0 at 1.
      generalize (tokens s) as toks.
      induction toks as [|t rest IH]; simpl; intros oc Hoc; [discriminate|].
      destruct (oc <? 4); [|discriminate].
      destruct (octet_ok atoi_overflow t); [eauto|discriminate]. }
  destruct (Z.eqb_spec oc 4) as [->|]; [|discriminate]. intros _.
  assert (Hb : 0 + Z.of_nat (length (tokens s)) <= 4) by lia.
  destruct (octets_four _ _ Hb Hoc) as [Hlen Hall].
  repeat split; try lia; try assumption.
  apply Forall_forall. intros seg Hseg%list_elem_of_In.
  destruct seg as [|c seg].
  - apply length_tokens_empty in Hseg. lia.
  - rewrite Forall_forall in Hall. apply Hall, list_elem_of_In.
    by apply tokens_In.
Qed.

Lemma verdict_rejects s :
  verdict atoi_overflow s <> 1 -> verdict atoi_overflow s = 0.
Proof. destruct (verdict_bool s); [auto | contradiction]. Qed.

End Verdict.

(** ** Numerals and [atoi] *)

Lemma isdigit_not_NUL t :
  forallb isdigit t = true -> Forall (fun c => c <> NUL) t.
Proof.
  intros H. apply Forall_forall. intros c Hc%list_elem_of_In ->.
  rewrite forallb_forall in H. by specialize (H _ Hc).
Qed.

Lemma digits_value_bound t :
  forallb isdigit t = true ->
  forall acc, 0 <= acc ->
    0 <= digits_value acc t < (acc + 1) * 10 ^ Z.of_nat (length t).
Proof.
  induction t as [|c r IH]; simpl; intros Ht acc Hacc; [lia|].
  apply andb_prop in Ht as [Hc Hr]. rewrite Hc.
  unfold isdigit in Hc. apply andb_prop in Hc as [H1 H2].
  apply Z.leb_le in H1, H2.
  destruct (IH Hr (10 * acc + (code c - 48))) as [Hlo Hhi]; [lia|].
  split; [exact Hlo|].
  rewrite Nat2Z.inj_succ, Z.pow_succ_r by lia.
  assert (0 < 10 ^ Z.of_nat (length r)) by (apply Z.pow_pos_nonneg; lia).
  nia.
Qed.

(** On a string of digits [atoi] reads the whole numeral. *)
Lemma atoi_value_digits t :
  forallb isdigit t = true -> atoi_value t = digits_value 0 t.
Proof.
  destruct t as [|c r]; [reflexivity|]. simpl.
  intros [Hc _]%andb_prop. unfold atoi_value. simpl.
  assert (Hsp : isspace c = false).
  { unfold isdigit in Hc. unfold isspace.
    apply andb_prop in Hc as [H1 H2]. apply Z.leb_le in H1, H2.
    destruct (Z.eqb_spec (code c) 32); [lia|].
    destruct (Z.leb_spec 9 (code c)), (Z.leb_spec (code c) 13);
      simpl; try reflexivity; lia. }
  rewrite Hsp.
  destruct (Ascii.eqb_spec c "-"%char) as [->|_]; [discriminate|].
  destruct (Ascii.eqb_spec c "+"%char) as [->|_]; [discriminate|].
  reflexivity.
Qed.

(** ** Properties of validate_ip *)

Section Properties.

Variable atoi_overflow : Z -> Z.

Lemma validate_ip_verdict st ip s :
  c_string st ip s ->
  returns (validate_ip atoi_overflow (Some ip) st) (verdict atoi_overflow s).
Proof.
  intros H. destruct (validate_ip_refines atoi_overflow st ip s H) as [o Ho].
  rewrite Ho. by eexists.
Qed.

Lemma validate_ip_rejects st ip s :
  c_string st ip s ->
  verdict atoi_overflow s <> 1 ->
  returns (validate_ip atoi_overflow (Some ip) st) 0.
Proof.
  intros H Hv. rewrite <- (verdict_rejects atoi_overflow s Hv).
  by apply validate_ip_verdict.
Qed.

Lemma segments_dotted a b c d :
  0 <= a <= 255 -> 0 <= b <= 255 -> 0 <= c <= 255 -> 0 <= d <= 255 ->
  segments (dotted a b c d) = [decimal a; decimal b; decimal c; decimal d].
Proof.
  intros Ha Hb Hc Hd. unfold dotted.
  destruct (decimal_octet a Ha) as (_ & _ & _ & Hda & _).
  destruct (decimal_octet b Hb) as (_ & _ & _ & Hdb & _).
  destruct (decimal_octet c Hc) as (_ & _ & _ & Hdc & _).
  destruct (decimal_octet d Hd) as (_ & _ & _ & Hdd & _).
  rewrite !segments_app_dot by assumption.
  by rewrite segments_no_dot.
Qed.

Lemma verdict_dotted a b c d :
  0 <= a <= 255 -> 0 <= b <= 255 -> 0 <= c <= 255 -> 0 <= d <= 255 ->
  verdict atoi_overflow (dotted a b c d) = 1.
Proof.
  intros Ha Hb Hc Hd.
  pose proof (segments_dotted a b c d Ha Hb Hc Hd) as Hseg.
  destruct (decimal_octet a Ha) as (Hla & _ & Hga & _ & Hna & _).
  destruct (decimal_octet b Hb) as (Hlb & _ & Hgb & _ & Hnb & _).
  destruct (decimal_octet c Hc) as (Hlc & _ & Hgc & _ & Hnc & _).
  destruct (decimal_octet d Hd) as (Hld & _ & Hgd & _ & Hnd & _).
  assert (Hdig : forall x, forallb isdigit x = true ->
                           forallb allowed x = true).
  { intros x Hx. apply forallb_forall. intros ch Hch.
    rewrite forallb_forall in Hx. unfold allowed.
    rewrite (Hx ch Hch). apply orb_true_r. }
  assert (Hdots : count_dots (dotted a b c d) = 3%nat).
  { pose proof (length_segments (dotted a b c d)) as H.
    rewrite Hseg in H. simpl in H. lia. }
  assert (Hlen : (7 <= length (dotted a b c d) <= 15)%nat).
  { pose proof (segments_length (dotted a b c d)) as H.
    rewrite Hseg, Hdots in H. simpl in H.
    rewrite !length_app in H. simpl in H.
    destruct (decimal a), (decimal b), (decimal c), (decimal d);
      try discriminate; simpl in *; lia. }
  unfold verdict.
  destruct (Z.ltb_spec (Z.of_nat (length (dotted a b c d))) 7); [lia|].
  destruct (Z.gtb_spec (Z.of_nat (length (dotted a b c d))) 15); [lia|].
  simpl. rewrite chars_pass_spec, Hdots.
  replace (forallb allowed (dotted a b c d)) with true.
  2:{ symmetry. unfold dotted.
      rewrite !forallb_app. simpl. rewrite !forallb_app. simpl.
      rewrite !forallb_app. simpl.
      by rewrite !Hdig by assumption. }
  simpl. unfold tokens. rewrite Hseg.
  rewrite !filter_cons_True by assumption. rewrite filter_nil.
  rewrite octets_all; [reflexivity | reflexivity |].
  repeat constructor; by apply decimal_octet_ok.
Qed.

(** C1: for a, b, c, d in 0..255, [validate_ip] returns 1 on the string
    a.b.c.d that joins their canonical decimal forms with dots. *)
Theorem validate_ip_accepts_canonical st ip a b c d :
  0 <= a <= 255 -> 0 <= b <= 255 -> 0 <= c <= 255 -> 0 <= d <= 255 ->
  c_string st ip (dotted a b c d) ->
  returns (validate_ip atoi_overflow (Some ip) st) 1.
Proof.
  intros Ha Hb Hc Hd Hs.
  rewrite <- (verdict_dotted a b c d Ha Hb Hc Hd).
  by apply validate_ip_verdict.
Qed.

(** Within [c_string], that is for a candidate of a length that 32
    bits hold, [validate_ip] returns, without a fault, 0 or 1: 0 on a
    NULL pointer, 0 on the empty string, and 0 or 1 on any string (those
    of dots only included).  Beyond that length it can fault, as the
    last section shows. *)
Theorem validate_ip_total st :
  returns (validate_ip atoi_overflow None st) 0 /\
  forall ip s,
    c_string st ip s ->
    exists v,
      returns (validate_ip atoi_overflow (Some ip) st) v /\
      (v = 0 \/ v = 1) /\ (s = [] -> v = 0).
Proof.
  split; [by exists st|].
  intros ip s Hs. exists (verdict atoi_overflow s).
  split; [by apply validate_ip_verdict|].
  split; [apply verdict_bool|]. by intros ->.
Qed.

(** Within [c_string], a candidate of fewer than 7 or more than 15
    characters is rejected, whatever it holds.  Beyond that length the
    gate can be passed, as the last section shows. *)
Theorem validate_ip_length_gate st ip s :
  c_string st ip s ->
  (length s < 7 \/ 15 < length s)%nat ->
  returns (validate_ip atoi_overflow (Some ip) st) 0.
Proof.
  intros Hs Hlen. apply (validate_ip_rejects st ip s Hs).
  intros (H & _)%verdict_accepts. lia.
Qed.

(** C4: a candidate with a segment of more than one character that
    begins with '0' is rejected; and the checks on one token let the
    token "0" through. *)
Theorem validate_ip_leading_zero st ip s :
  (forall seg,
     c_string st ip s ->
     In seg (segments s) ->
     (1 < length seg)%nat -> head seg = Some "0"%char ->
     returns (validate_ip atoi_overflow (Some ip) st) 0) /\
  (forall token,
     mem_string (st_mem st) token = Some ["0"%char] ->
     exists st', check_octet atoi_overflow token st = Some (Next tt, st')).
Proof.
  split.
  - intros seg Hs Hseg Hlen Hhd. apply (validate_ip_rejects st ip s Hs).
    intros (_ & _ & _ & _ & Hall)%verdict_accepts.
    rewrite Forall_forall in Hall.
    specialize (Hall seg (proj2 (list_elem_of_In _ _) Hseg)).
    apply octet_ok_reaches in Hall. unfold reaches_atoi, leading_zero in Hall.
    destruct seg as [|c0 seg]; [discriminate|]. injection Hhd as ->.
    apply Nat.ltb_lt in Hlen. rewrite Hlen in Hall. simpl in Hall.
    discriminate.
  - intros token Ht.
    destruct (check_octet_spec atoi_overflow st token _ Ht) as [extra H].
    rewrite H. by eexists.
Qed.

(** A numeral above 255 fails the checks on a token, whatever [atoi]
    returns for it. *)
Lemma octet_ok_range t v :
  numeral_value t = Some v -> 255 < v -> octet_ok atoi_overflow t = false.
Proof.
  unfold numeral_value. intros Hval Hv.
  destruct (nonempty t && forallb isdigit t) eqn:Hnum; [|discriminate].
  injection Hval as <-. apply andb_prop in Hnum as [_ Hdig].
  destruct (octet_ok atoi_overflow t) eqn:Hok; [|reflexivity].
  destruct (octet_ok_decimal atoi_overflow t (isdigit_not_NUL _ Hdig) Hok)
    as (n & Hn & ->).
  destruct (decimal_octet n Hn) as (_ & _ & _ & _ & _ & Hback). lia.
Qed.

(** C5: a candidate with a segment that is a decimal numeral of a value
    above 255 is rejected, and the checks on one token reject such a
    numeral, whatever [atoi] makes of a numeral too large for an [int]
    (a value of 0..255 included: the round trip through [sprintf] and
    [strcmp] then fails). *)
Theorem validate_ip_octet_range st ip s :
  (forall seg v,
     c_string st ip s ->
     In seg (segments s) ->
     numeral_value seg = Some v -> 255 < v ->
     returns (validate_ip atoi_overflow (Some ip) st) 0) /\
  (forall token t v,
     mem_string (st_mem st) token = Some t ->
     numeral_value t = Some v -> 255 < v ->
     exists st', check_octet atoi_overflow token st = Some (Return 0, st')).
Proof.
  split.
  - intros seg v Hs Hseg Hval Hv. apply (validate_ip_rejects st ip s Hs).
    intros (_ & _ & _ & _ & Hall)%verdict_accepts.
    rewrite Forall_forall in Hall.
    specialize (Hall seg (proj2 (list_elem_of_In _ _) Hseg)).
    by rewrite (octet_ok_range seg v Hval Hv) in Hall.
  - intros token t v Ht Hval Hv.
    destruct (check_octet_spec atoi_overflow st token t Ht) as [extra H].
    rewrite H, (octet_ok_range t v Hval Hv). by eexists.
Qed.

(** C6: a candidate with an empty segment (a leading dot, a trailing
    dot, two dots in a row), or whose segments are not exactly four, is
    rejected. *)
Theorem validate_ip_empty_segment st ip s :
  c_string st ip s ->
  In [] (segments s) \/ length (segments s) <> 4%nat ->
  returns (validate_ip atoi_overflow (Some ip) st) 0.
Proof.
  intros Hs Hbad. apply (validate_ip_rejects st ip s Hs).
  intros (_ & _ & _ & Hfour & Hall)%verdict_accepts.
  destruct Hbad as [Hempty|Hlen]; [|contradiction].
  rewrite Forall_forall in Hall.
  specialize (Hall [] (proj2 (list_elem_of_In _ _) Hempty)).
  discriminate.
Qed.

(** C7: a candidate holding a character that is neither a decimal digit
    nor a dot is rejected. *)
Theorem validate_ip_character_gate st ip s c :
  c_string st ip s ->
  In c s -> isdigit c = false -> c <> "."%char ->
  returns (validate_ip atoi_overflow (Some ip) st) 0.
Proof.
  intros Hs Hc Hdig Hdot. apply (validate_ip_rejects st ip s Hs).
  intros (_ & Hall & _)%verdict_accepts.
  rewrite forallb_forall in Hall. specialize (Hall c Hc).
  unfold allowed, is_dot in Hall. rewrite Hdig, orb_false_r in Hall.
  by apply Ascii.eqb_eq in Hall.
Qed.

(** C8: a candidate whose number of dots is not three is rejected. *)
Theorem validate_ip_dot_count st ip s :
  c_string st ip s ->
  count_dots s <> 3%nat ->
  returns (validate_ip atoi_overflow (Some ip) st) 0.
Proof.
  intros Hs Hdots. apply (validate_ip_rejects st ip s Hs).
  by intros (_ & _ & H & _)%verdict_accepts.
Qed.

(** C9: the call leaves the caller's memory, and so the candidate
    string, as it was: the tokenizer writes to the local copy only. *)
Theorem validate_ip_preserves_candidate st ip s :
  c_string st ip s ->
  exists v st',
    validate_ip atoi_overflow (Some ip) st = Some (v, st') /\
    st_mem st' = st_mem st /\
    mem_string (st_mem st') ip = Some s.
Proof.
  intros Hs. destruct (validate_ip_refines atoi_overflow st ip s Hs) as [o Ho].
  eexists _, _. split; [exact Ho|]. simpl. split; [reflexivity|apply Hs].
Qed.

(** The tokens of a string that passes the gates and has no empty
    segment are numerals of at most nine digits. *)
Lemma atoi_calls_in_range s :
  Forall (fun seg => seg <> []) (segments s) ->
  Forall (fun tok => INT_MIN <= atoi_value tok <= INT_MAX)
         (atoi_calls atoi_overflow s).
Proof.
  intros Hne. unfold atoi_calls.
  destruct (Z.ltb_spec (Z.of_nat (length s)) 7); [constructor|].
  destruct (Z.gtb_spec (Z.of_nat (length s)) 15); [constructor|]. simpl.
  rewrite chars_pass_spec.
  destruct (forallb allowed s) eqn:Hall; [|constructor].
  destruct (Z.eqb_spec (0 + Z.of_nat (count_dots s)) 3) as [Hdots|];
    [|constructor]. simpl.
  apply Forall_forall. intros tok Htok%list_elem_of_In.
  apply octets_atoi_incl in Htok.
  apply list_elem_of_In, list_elem_of_filter in Htok as [_ Hseg%list_elem_of_In].
  assert (Hdig : forallb isdigit tok = true).
  { apply forallb_forall. intros c Hc.
    destruct (segments_chars s tok c Hseg Hc) as [Hin Hdot].
    rewrite forallb_forall in Hall. specialize (Hall c Hin).
    unfold allowed in Hall. by rewrite Hdot in Hall. }
  assert (Hlen : (length tok <= 9)%nat).
  { pose proof (segments_length s) as Hsum.
    pose proof (length_segments s) as Hfour.
    destruct (segments s) as [|x1 [|x2 [|x3 [|x4 [|x5 l]]]]];
      simpl in Hfour; try lia.
    inversion Hne as [|? ? H1 Hne1]; subst.
    inversion Hne1 as [|? ? H2 Hne2]; subst.
    inversion Hne2 as [|? ? H3 Hne3]; subst.
    inversion Hne3 as [|? ? H4 _]; subst.
    simpl in Hsum. rewrite !length_app in Hsum. simpl in Hsum.
    assert (forall x : list ascii, x <> [] -> (1 <= length x)%nat)
      as Hpos by (intros [|? ?] ?; simpl; [congruence|lia]).
    apply Hpos in H1, H2, H3, H4.
    destruct Hseg as [<-|[<-|[<-|[<-|[]]]]]; lia. }
  rewrite (atoi_value_digits tok Hdig).
  destruct (digits_value_bound tok Hdig 0) as [Hlo Hhi]; [lia|].
  assert (10 ^ Z.of_nat (length tok) <= 10 ^ 9)
    by (apply Z.pow_le_mono_r; lia).
  unfold INT_MIN, INT_MAX. lia.
Qed.

(** C10, as amended: when the candidate has no empty segment, every
    token the call hands to [atoi] denotes a number an [int] can hold. *)
Theorem validate_ip_atoi_in_range st ip s :
  c_string st ip s ->
  Forall (fun seg => seg <> []) (segments s) ->
  exists v st' calls,
    validate_ip atoi_overflow (Some ip) st = Some (v, st') /\
    atoi_log st' = atoi_log st ++ calls /\
    Forall (fun tok => INT_MIN <= atoi_value tok <= INT_MAX) calls.
Proof.
  intros Hs Hne.
  destruct (validate_ip_refines atoi_overflow st ip s Hs) as [o Ho].
  eexists _, _, _. split; [exact Ho|]. split; [reflexivity|].
  by apply atoi_calls_in_range.
Qed.

End Properties.

(** ** The properties at work on concrete candidates *)

Lemma validate_ip_accepts_canonical_witness :
  returns (run "192.168.1.1") 1.
Proof.
  apply (validate_ip_accepts_canonical atoi_wraps
           (store_of "192.168.1.1") candidate 192 168 1 1);
    [lia | lia | lia | lia | holds_string].
Defined.

Lemma validate_ip_total_witness :
  exists v, returns (run "...........") v /\
            (v = 0 \/ v = 1) /\
            (list_ascii_of_string "..........." = [] -> v = 0).
Proof.
  apply (proj2 (validate_ip_total atoi_wraps (store_of "..........."))
           candidate (list_ascii_of_string "...........")).
  holds_string.
Defined.

Lemma validate_ip_length_gate_witness :
  returns (run "1.1.1.1.1.1.1.1.1") 0.
Proof.
  apply (validate_ip_length_gate atoi_wraps (store_of "1.1.1.1.1.1.1.1.1")
           candidate (list_ascii_of_string "1.1.1.1.1.1.1.1.1")).
  - holds_string.
  - right. simpl. lia.
Defined.

Lemma validate_ip_leading_zero_witness :
  returns (run "192.168.01.1") 0.
Proof.
  apply (proj1 (validate_ip_leading_zero atoi_wraps (store_of "192.168.01.1")
                  candidate (list_ascii_of_string "192.168.01.1"))
           (list_ascii_of_string "01")).
  - holds_string.
  - in_list.
  - simpl. lia.
  - reflexivity.
Defined.

Lemma validate_ip_octet_range_witness :
  returns (run "256.1.1.1") 0.
Proof.
  apply (proj1 (validate_ip_octet_range atoi_wraps (store_of "256.1.1.1")
                  candidate (list_ascii_of_string "256.1.1.1"))
           (list_ascii_of_string "256") 256).
  - holds_string.
  - in_list.
  - reflexivity.
  - lia.
Defined.

Lemma validate_ip_empty_segment_witness :
  returns (run "192..1.1") 0.
Proof.
  apply (validate_ip_empty_segment atoi_wraps (store_of "192..1.1")
           candidate (list_ascii_of_string "192..1.1")).
  - holds_string.
  - left. in_list.
Defined.

Lemma validate_ip_character_gate_witness :
  returns (run " 1.1.1.1") 0.
Proof.
  apply (validate_ip_character_gate atoi_wraps (store_of " 1.1.1.1")
           candidate (list_ascii_of_string " 1.1.1.1") " "%char).
  - holds_string.
  - in_list.
  - reflexivity.
  - discriminate.
Defined.

Lemma validate_ip_dot_count_witness :
  returns (run "192.168.1") 0.
Proof.
  apply (validate_ip_dot_count atoi_wraps (store_of "192.168.1")
           candidate (list_ascii_of_string "192.168.1")).
  - holds_string.
  - vm_compute. discriminate.
Defined.

Lemma validate_ip_preserves_candidate_witness :
  exists v st',
    run "10.0.0.1" = Some (v, st') /\
    st_mem st' = st_mem (store_of "10.0.0.1") /\
    mem_string (st_mem st') candidate = Some (list_ascii_of_string "10.0.0.1").
Proof.
  apply (validate_ip_preserves_candidate atoi_wraps (store_of "10.0.0.1")
           candidate (list_ascii_of_string "10.0.0.1")).
  holds_string.
Defined.

Lemma validate_ip_atoi_in_range_witness :
  exists v st' calls,
    run "999999999.9.9.9" = Some (v, st') /\
    atoi_log st' = atoi_log (store_of "999999999.9.9.9") ++ calls /\
    Forall (fun tok => INT_MIN <= atoi_value tok <= INT_MAX) calls.
Proof.
  apply (validate_ip_atoi_in_range atoi_wraps (store_of "999999999.9.9.9")
           candidate (list_ascii_of_string "999999999.9.9.9")).
  - holds_string.
  - vm_compute. repeat constructor; discriminate.
Defined.

(** C10 as it was stated fails: on "9999999999.1.1." the call hands the
    token "9999999999" to [atoi], and no [int] holds that number. *)
Lemma validate_ip_atoi_overflows :
  exists st',
    c_string (store_of "9999999999.1.1.") candidate
             (list_ascii_of_string "9999999999.1.1.") /\
    run "9999999999.1.1." = Some (0, st') /\
    In (list_ascii_of_string "9999999999") (atoi_log st') /\
    INT_MAX < atoi_value (list_ascii_of_string "9999999999").
Proof.
  eexists. split; [holds_string|].
  split; [vm_compute; reflexivity|].
  split; [in_list | vm_compute; reflexivity].
Qed.

(** The round trip after the range check is what rejects a numeral
    that wraps around to a value of 0..255. *)
Example wrapped_numeral_rejected :
  atoi_result atoi_wraps (list_ascii_of_string "4294967296") = 0 /\
  octet_ok atoi_wraps (list_ascii_of_string "4294967296") = false /\
  returns (run "4294967296.1.1.") 0.
Proof.
  split; [reflexivity|]. split; [reflexivity|]. by eexists.
Qed.

(** The table of the specification. *)
Example table_of_verdicts :
  fst <$> run "0.0.0.0" = Some 1 /\
  fst <$> run "255.255.255.255" = Some 1 /\
  fst <$> run "192.168.1.1" = Some 1 /\
  fst <$> run "10.0.0.1" = Some 1 /\
  fst <$> run "192.168.01.1" = Some 0 /\
  fst <$> run "256.1.1.1" = Some 0 /\
  fst <$> run " 1.1.1.1" = Some 0 /\
  fst <$> run "1.1.1.1." = Some 0 /\
  fst <$> run "" = Some 0 /\
  fst <$> run "192.168.1.1.1" = Some 0 /\
  fst <$> run "1.2.3.a" = Some 0.
Proof. vm_compute. repeat split. Qed.

(** ** What an accepted candidate is, and what a call leaves behind *)

Lemma segments_join s : join_dots (segments s) = s.
Proof.
  induction s as [|c r IH]; simpl; [reflexivity|].
  destruct (is_dot c) eqn:Hc.
  - apply Ascii.eqb_eq in Hc as ->.
    destruct (segments r) as [|seg segs] eqn:Hr.
    + pose proof (length_segments r) as H. rewrite Hr in H. discriminate.
    + simpl in IH |- *. by rewrite IH.
  - destruct (segments r) as [|seg segs] eqn:Hr.
    + pose proof (length_segments r) as H. rewrite Hr in H. discriminate.
    + simpl in IH |- *. destruct segs; simpl; by rewrite <- IH.
Qed.

Lemma allowed_not_NUL s :
  forallb allowed s = true -> Forall (fun c => c <> NUL) s.
Proof.
  intros H. apply Forall_forall. intros c Hc%list_elem_of_In ->.
  rewrite forallb_forall in H. by specialize (H _ Hc).
Qed.

Lemma gates_pass_spec s :
  gates_pass s = true <->
  (7 <= length s <= 15)%nat /\ forallb allowed s = true /\
  count_dots s = 3%nat.
Proof.
  unfold gates_pass. rewrite !andb_true_iff, !Nat.leb_le, Nat.eqb_eq. tauto.
Qed.

Section Acceptance.

Variable atoi_overflow : Z -> Z.

(** An accepted string is a.b.c.d for numbers of 0..255 in canonical
    form. *)
Lemma verdict_canonical s :
  verdict atoi_overflow s = 1 ->
  exists a b c d,
    (0 <= a <= 255 /\ 0 <= b <= 255 /\ 0 <= c <= 255 /\ 0 <= d <= 255) /\
    s = dotted a b c d.
Proof.
  intros (_ & Hall & _ & Hfour & Hok)%verdict_accepts.
  pose proof (segments_join s) as Hjoin.
  assert (Hseg : forall seg, In seg (segments s) ->
                 exists n, 0 <= n <= 255 /\ seg = decimal n).
  { intros seg Hseg. apply (octet_ok_decimal atoi_overflow).
    - apply Forall_forall. intros ch Hch%list_elem_of_In.
      destruct (segments_chars s seg ch Hseg Hch) as [Hin _].
      pose proof (allowed_not_NUL s Hall) as Hnul.
      rewrite Forall_forall in Hnul. by apply Hnul, list_elem_of_In.
    - rewrite Forall_forall in Hok. by apply Hok, list_elem_of_In. }
  destruct (segments s) as [|x1 [|x2 [|x3 [|x4 [|x5 l]]]]];
    try discriminate.
  destruct (Hseg x1) as (a & Ha & ->); [simpl; auto|].
  destruct (Hseg x2) as (b & Hb & ->); [simpl; auto|].
  destruct (Hseg x3) as (c & Hc & ->); [simpl; auto|].
  destruct (Hseg x4) as (d & Hd & ->); [simpl; auto 6|].
  exists a, b, c, d. split; [auto|]. by rewrite <- Hjoin.
Qed.

Lemma returns_inj r v v' : returns r v -> returns r v' -> v = v'.
Proof. intros [st1 ->] [st2 [= ->]]. reflexivity. Qed.

(** X1: a candidate on which [validate_ip] returns 1 is a.b.c.d, the
    canonical decimal forms of four numbers of 0..255 joined by dots;
    nothing else is accepted. *)
Theorem validate_ip_accepts_only_canonical st ip s :
  c_string st ip s ->
  returns (validate_ip atoi_overflow (Some ip) st) 1 ->
  exists a b c d,
    (0 <= a <= 255 /\ 0 <= b <= 255 /\ 0 <= c <= 255 /\ 0 <= d <= 255) /\
    s = dotted a b c d.
Proof.
  intros Hs Hret. apply verdict_canonical.
  destruct (validate_ip_refines atoi_overflow st ip s Hs) as [o Ho].
  symmetry. apply (returns_inj _ _ _ Hret). rewrite Ho. by eexists.
Qed.

End Acceptance.

Lemma verdict_atoi_independent f g s : verdict f s = verdict g s.
Proof.
  destruct (verdict_bool f s) as [Hf|Hf], (verdict_bool g s) as [Hg|Hg];
    try congruence.
  - destruct (verdict_canonical g s Hg) as (a & b & c & d & (Ha & Hb & Hc & Hd) & ->).
    rewrite (verdict_dotted f a b c d Ha Hb Hc Hd) in Hf. discriminate.
  - destruct (verdict_canonical f s Hf) as (a & b & c & d & (Ha & Hb & Hc & Hd) & ->).
    rewrite (verdict_dotted g a b c d Ha Hb Hc Hd) in Hg. discriminate.
Qed.

(** X2: the value [validate_ip] returns does not depend on what [atoi]
    does with a numeral too large for an [int]: two C libraries that
    differ there give the same verdict on every candidate. *)
Theorem validate_ip_atoi_independent f g st ip s :
  c_string st ip s ->
  exists v,
    returns (validate_ip f (Some ip) st) v /\
    returns (validate_ip g (Some ip) st) v.
Proof.
  intros Hs. exists (verdict f s). split.
  - by apply validate_ip_verdict.
  - rewrite (verdict_atoi_independent f g s). by apply validate_ip_verdict.
Qed.

(** A call of [strtok] that returns leaves its saved pointer in the
    block it was scanning. *)
Lemma strtok_saves st str delim s token st' :
  match str with Some p => Some p | None => strtok_olds st end = Some s ->
  strtok str delim st = Some (token, st') ->
  exists p, strtok_olds st' = Some p /\ ptr_block p = ptr_block s.
Proof.
  intros Hstr. unfold strtok. rewrite Hstr.
  destruct (mem_string (st_mem st) s) as [cs|]; [|discriminate].
  destruct (drop (strspn cs delim) cs) as [|c r].
  - intros [= _ <-]. by eexists.
  - destruct (decide _).
    + intros [= _ <-]. by eexists.
    + destruct (mem_store _ _ _); [|discriminate].
      intros [= _ <-]. by eexists.
Qed.

Section FinalState.

Variable atoi_overflow : Z -> Z.

#[local] Arguments replicate : simpl never.
#[local] Arguments octet_loop : simpl never.
#[local] Arguments first_pass : simpl never.

(** The loop keeps [strtok]'s saved pointer in the working copy. *)
Lemma octet_loop_olds k toks :
  forall fuel token octet_count st r st',
    tok_state k st token toks ->
    (exists p, strtok_olds st = Some p /\ ptr_block p = k) ->
    octet_loop atoi_overflow fuel token octet_count st = Some (r, st') ->
    exists p, strtok_olds st' = Some p /\ ptr_block p = k.
Proof.
  induction toks as [|t rest IH]; intros fuel token oc st r st' Hinv Holds.
  - destruct token as [tok|]; [destruct Hinv|].
    rewrite octet_loop_unfold. by intros [= _ <-].
  - destruct token as [tok|]; [|destruct Hinv].
    destruct Hinv as (Hblk & Ht & olds & cs & Ho & Hoblk & Hcs & Hrest).
    rewrite octet_loop_unfold. destruct (oc <? 4); [|by intros [= _ <-]].
    destruct fuel as [|fuel]; [discriminate|].
    destruct (check_octet_spec atoi_overflow st tok t Ht) as [extra Hchk].
    unfold bind at 1. rewrite Hchk.
    destruct (octet_ok atoi_overflow t); [|by intros [= _ <-]].
    set (st1 := State (st_mem st ++ extra) (strtok_olds st)
                      (atoi_log st ++ if reaches_atoi t then [t] else [])).
    destruct (strtok_spec st1 None olds cs) as
      (token' & st2 & Htok & _ & _ & _ & Hinv').
    { exact Ho. }
    { simpl. by apply mem_string_app. }
    unfold bind at 1. rewrite Htok. rewrite Hoblk, Hrest in Hinv'.
    apply (IH fuel token' (oc + 1) st2 r st' Hinv').
    rewrite <- Hoblk. by apply (strtok_saves st1 None ["."%char] olds token').
Qed.

(** The state a call ends in: the one it started in when a gate turned
    the candidate down; else the same memory, with [strtok]'s saved
    pointer in the block that was the working copy. *)
Lemma validate_ip_final_state st ip s :
  c_string st ip s ->
  exists st',
    validate_ip atoi_overflow (Some ip) st =
    Some (verdict atoi_overflow s, st') /\
    (gates_pass s = false -> st' = st) /\
    (gates_pass s = true ->
     st_mem st' = st_mem st /\
     exists p, strtok_olds st' = Some p /\
               ptr_block p = length (st_mem st)).
Proof.
  intros [Hs Hsize]. destruct st as [m o log]. simpl in Hs |- *.
  unfold call, validate_ip_body, verdict. simpl.
  unfold bind at 1. unfold alloca at 1. simpl.
  unfold bind at 1. unfold strlen, lift. simpl.
  rewrite (mem_string_app _ _ _ _ Hs). simpl.
  destruct (to_int_gate (Z.of_nat (length s))) as [Hgate Hlen]; [lia|].
  rewrite Hgate.
  destruct ((Z.of_nat (length s) <? 7) || (Z.of_nat (length s) >? 15))
    eqn:Hg; simpl.
  { eexists. split; [reflexivity|]. unfold set_mem. simpl.
    rewrite take_app_length. split; [reflexivity|].
    intros (Hl & _)%gates_pass_spec. exfalso.
    apply orb_true_iff in Hg as [Hg|Hg].
    - apply Z.ltb_lt in Hg. lia.
    - rewrite Z.gtb_ltb in Hg. apply Z.ltb_lt in Hg. lia. }
  rewrite (Hlen eq_refl), Nat2Z.id. clear Hgate Hlen.
  apply orb_false_elim in Hg as [Hg7 Hg15].
  apply Z.ltb_ge in Hg7. rewrite Z.gtb_ltb in Hg15. apply Z.ltb_ge in Hg15.
  unfold bind at 1. unfold strcpy, bind, lift, update, set_mem. simpl.
  rewrite (mem_string_app _ _ _ _ Hs). simpl.
  rewrite (mem_write_fresh m 16 s) by lia. simpl.
  set (copy := (Some <$> s) ++ Some NUL :: replicate (15 - length s) None).
  set (st2 := State (m ++ [copy]) o log).
  rewrite (first_pass_spec st2 ip s 0 0)
    by (rewrite ptr_add_0; by apply mem_string_app).
  rewrite chars_pass_spec.
  destruct (forallb allowed s) eqn:Hall; simpl.
  2:{ eexists. split; [reflexivity|]. rewrite take_app_length.
      split; [reflexivity|]. intros (_ & H & _)%gates_pass_spec. congruence. }
  destruct (Z.eqb_spec (0 + Z.of_nat (count_dots s)) 3) as [Hdots|Hdots];
    simpl.
  2:{ eexists. split; [reflexivity|]. rewrite take_app_length.
      split; [reflexivity|]. intros (_ & _ & H)%gates_pass_spec. lia. }
  assert (Hpass : gates_pass s = true)
    by (apply gates_pass_spec; repeat split; try lia; assumption).
  destruct (strtok_spec st2 (Some (Ptr (length m) 0)) (Ptr (length m) 0) s)
    as (token & st3 & Htok & Hlog3 & Hlen3 & Hfr3 & Hinv); [reflexivity| |].
  { apply mem_string_fresh. by eapply mem_string_no_nul. }
  rewrite Htok.
  destruct (strtok_saves st2 (Some (Ptr (length m) 0)) ["."%char]
              (Ptr (length m) 0) token st3 eq_refl Htok)
    as (p3 & Hp3 & Hb3).
  simpl in Hfr3, Hinv, Hlen3, Hlog3, Hb3.
  destruct (octet_loop_spec atoi_overflow (length m) (tokens s) 4 token 0
              st3 Hinv) as (st' & Hrun & Hlog' & Hfr').
  { rewrite Hlen3, length_app. simpl. lia. }
  { simpl. lia. }
  destruct (octet_loop_olds (length m) (tokens s) 4 token 0 st3 _ st' Hinv
              ltac:(eauto) Hrun) as (p & Hp & Hb).
  rewrite Hrun. rewrite Hfr3, take_app_length in Hfr'.
  assert (Hfin : forall v : Z,
    exists st'',
      Some (v, State (take (length m) (st_mem st')) (strtok_olds st')
                     (atoi_log st')) = Some (v, st'') /\
      (gates_pass s = false -> st'' = State m o log) /\
      (gates_pass s = true ->
       st_mem st'' = m /\
       exists p, strtok_olds st'' = Some p /\ ptr_block p = length m)).
  { intros v. eexists. split; [reflexivity|]. split; [congruence|].
    intros _. simpl. split; [exact Hfr'|]. by exists p. }
  destruct (octets atoi_overflow (tokens s) 0) as [octet_count|v]; simpl.
  - destruct (negb (octet_count =? 4)); simpl; apply Hfin.
  - apply Hfin.
Qed.

(** X3: a candidate turned down by the length gate, the first pass or
    the count of dots is rejected before any token is taken: the call
    returns 0 and leaves the whole state, [strtok]'s saved pointer
    included, as it found it. *)
Theorem validate_ip_gate_leaves_state st ip s :
  c_string st ip s ->
  gates_pass s = false ->
  validate_ip atoi_overflow (Some ip) st = Some (0, st).
Proof.
  intros Hs Hgate.
  destruct (validate_ip_final_state st ip s Hs) as (st' & Hrun & Hsame & _).
  rewrite Hrun, (Hsame Hgate). do 2 f_equal.
  apply verdict_rejects. intros (Hl & Ha & Hd & _)%verdict_accepts.
  assert (gates_pass s = true) by (by apply gates_pass_spec). congruence.
Qed.

(** X4: once a candidate is past the gates the call tokenizes its local
    copy, and it returns with [strtok]'s saved pointer aimed at that
    released copy: a [strtok (NULL, ...)] after the call, meant to go on
    with a scan begun before it, is undefined. *)
Theorem validate_ip_clobbers_strtok st ip s delim :
  c_string st ip s ->
  gates_pass s = true ->
  exists v st',
    validate_ip atoi_overflow (Some ip) st = Some (v, st') /\
    strtok None delim st' = None.
Proof.
  intros Hs Hgate.
  destruct (validate_ip_final_state st ip s Hs)
    as (st' & Hrun & _ & Hpass).
  destruct (Hpass Hgate) as (Hmem & p & Hp & Hblk).
  eexists _, st'. split; [exact Hrun|].
  unfold strtok. rewrite Hp. unfold mem_string.
  rewrite Hmem, Hblk. by rewrite lookup_ge_None_2.
Qed.

End FinalState.

(** ** main: reading a line into the buffer *)

Lemma scan_string_until_nul cs r :
  scan_string ((Some <$> cs) ++ Some NUL :: r) = Some (until_nul cs).
Proof.
  induction cs as [|c cs IH]; csimpl; [reflexivity|].
  destruct (Ascii.eqb c NUL); [reflexivity|]. by rewrite IH.
Qed.

Lemma until_nul_id cs : Forall (fun c => c <> NUL) cs -> until_nul cs = cs.
Proof.
  induction 1 as [|c cs Hc _ IH]; simpl; [reflexivity|].
  apply eqb_NUL in Hc. by rewrite Hc, IH.
Qed.

Lemma until_nul_length cs : (length (until_nul cs) <= length cs)%nat.
Proof.
  induction cs as [|c cs IH]; simpl; [lia|].
  destruct (Ascii.eqb c NUL); simpl; lia.
Qed.

Lemma fgets_line_length k input :
  (length (fgets_line k input).1 <= k)%nat.
Proof.
  revert input. induction k as [|k IH]; intros [|c r]; simpl; try lia.
  destruct (Ascii.eqb c NL); simpl; [lia|].
  specialize (IH r). destruct (fgets_line k r). simpl in *. lia.
Qed.

(** A whole line, up to and with its newline, when it fits. *)
Lemma fgets_line_whole k l rest :
  Forall (fun c => c <> NL) l -> (length l < k)%nat ->
  fgets_line k (l ++ NL :: rest) = (l ++ [NL], rest).
Proof.
  intros Hl. revert k. induction Hl as [|c l Hc _ IH]; intros k Hk.
  - destruct k; [simpl in Hk; lia|]. reflexivity.
  - destruct k; [simpl in Hk; lia|]. simpl.
    destruct (Ascii.eqb_spec c NL); [contradiction|].
    rewrite IH by (simpl in Hk; lia). reflexivity.
Qed.

(** A line too long to fit is cut after [k] characters. *)
Lemma fgets_line_cut l rest :
  Forall (fun c => c <> NL) l ->
  fgets_line (length l) (l ++ rest) = (l, rest).
Proof.
  induction 1 as [|c l Hc _ IH]; simpl; [by destruct rest|].
  destruct (Ascii.eqb_spec c NL); [contradiction|]. by rewrite IH.
Qed.

(** Storing characters and a NUL at the start of a block. *)
Lemma mem_write_buffer (m : mem) blk b cs :
  m !! blk = Some b -> (length cs < length b)%nat ->
  exists m' b',
    mem_write m (Ptr blk 0) (cs ++ [NUL]) = Some m' /\
    mem_string m' (Ptr blk 0) = Some (until_nul cs) /\
    m' !! blk = Some b' /\ length b' = length b.
Proof.
  intros Hb Hlen.
  assert (Hl : (0 + length (cs ++ [NUL]) <= length b)%nat)
    by (rewrite length_app; simpl; lia).
  rewrite (mem_write_block m blk 0 b (cs ++ [NUL]) Hb Hl).
  eexists _, _. split; [reflexivity|].
  assert (Hblk : forall x : list cell, <[blk:=x]> m !! blk = Some x).
  { intros x. apply list_lookup_insert_eq. by eapply lookup_lt_Some. }
  split; [|split; [apply Hblk|]].
  - unfold mem_string. simpl. rewrite Hblk. simpl.
    rewrite fmap_app, <- app_assoc. apply scan_string_until_nul.
  - simpl. rewrite !length_app, length_fmap, length_drop, length_app.
    simpl. lia.
Qed.

Lemma hd_drop (u : list ascii) n :
  hd NUL (drop n u) = default NUL (u !! n).
Proof.
  rewrite <- (Nat.add_0_r n) at 2. rewrite <- lookup_drop.
  by destruct (drop n u).
Qed.

Lemma chomp_newline l : chomp (l ++ [NL]) = l.
Proof.
  unfold chomp. rewrite last_snoc. simpl.
  rewrite length_app. simpl.
  replace (length l + 1 - 1)%nat with (length l) by lia.
  by rewrite take_app_length.
Qed.

Lemma chomp_no_newline u :
  last u <> Some NL -> chomp u = u.
Proof.
  unfold chomp. destruct (last u) as [c|]; [|reflexivity].
  destruct (Ascii.eqb_spec c NL) as [->|]; [congruence|reflexivity].
Qed.

Lemma chomp_length u : (length (chomp u) <= length u)%nat.
Proof.
  unfold chomp. destruct (last u) as [c|]; [|lia].
  destruct (Ascii.eqb c NL); [|lia]. rewrite length_take. lia.
Qed.

Lemma fgets_spec w ip_input c r :
  buffer_at w ip_input -> w_stdin w = c :: r ->
  exists m',
    fgets ip_input 100 w =
    Some (Some ip_input,
          World (set_mem (w_state w) m') (fgets_line 99 (c :: r)).2
                (w_stdout w)) /\
    mem_string m' ip_input = Some (until_nul (fgets_line 99 (c :: r)).1) /\
    exists b', m' !! ptr_block ip_input = Some b' /\ length b' = 100%nat.
Proof.
  intros (Hofs & b & Hb & Hlen) Hin. unfold fgets. rewrite Hin.
  change (100 - 1)%nat with 99%nat.
  pose proof (fgets_line_length 99 (c :: r)) as Hl.
  destruct (fgets_line 99 (c :: r)) as [l rest]. simpl in Hl |- *.
  destruct ip_input as [blk ofs]. simpl in Hofs, Hb. subst ofs.
  destruct (mem_write_buffer _ blk b l Hb) as (m' & b' & Hw & Hs & Hb' & Hl');
    [lia|].
  rewrite Hw. exists m'. split; [reflexivity|]. split; [exact Hs|].
  exists b'. simpl. split; [exact Hb' | lia].
Qed.

(** Lines 150-153 leave in the buffer the string without its final
    newline. *)
Lemma strip_newline_spec w ip_input u :
  buffer_at w ip_input ->
  mem_string (st_mem (w_state w)) ip_input = Some u ->
  (length u <= 99)%nat ->
  exists m',
    strip_newline ip_input w =
    Some (tt, World (set_mem (w_state w) m') (w_stdin w) (w_stdout w)) /\
    mem_string m' ip_input = Some (chomp u) /\
    exists b', m' !! ptr_block ip_input = Some b' /\ length b' = 100%nat.
Proof.
  intros (Hofs & b & Hb & Hlen) Hu Hshort.
  destruct w as [st input out]. simpl in *.
  unfold strip_newline, io_bind, on_state, strlen, lift. simpl.
  rewrite Hu. simpl.
  assert (Hint : to_int (Z.of_nat (length u)) = Z.of_nat (length u)).
  { unfold to_int. rewrite Z.mod_small by lia. lia. }
  rewrite Hint.
  assert (Hsame : exists m',
    Some (tt, World st input out) =
    Some (tt, World (set_mem st m') input out) /\
    mem_string m' ip_input = Some u /\
    exists b', m' !! ptr_block ip_input = Some b' /\ length b' = 100%nat).
  { exists (st_mem st). destruct st. by eauto. }
  destruct (Z.ltb_spec 0 (Z.of_nat (length u))) as [Hpos|Hzero].
  2:{ destruct u; [|simpl in Hzero; lia]. simpl. exact Hsame. }
  replace (Z.to_nat (Z.of_nat (length u) - 1)) with (length u - 1)%nat
    by lia.
  unfold load, lift. simpl.
  assert (Hn : (length u - 1 <= length u)%nat) by lia.
  rewrite (mem_string_load _ _ _ (mem_string_add _ _ _ _ Hu Hn)).
  rewrite hd_drop. unfold chomp. rewrite last_lookup.
  replace (pred (length u)) with (length u - 1)%nat by lia.
  destruct (u !! (length u - 1)%nat) as [c|] eqn:Hc; simpl.
  2:{ apply lookup_ge_None in Hc. lia. }
  destruct (Ascii.eqb c NL); simpl; [|exact Hsame].
  destruct (mem_store_cut _ _ _ (length u - 1) Hu) as
    (m' & Hst & Ht & _ & _ & _); [lia|].
  unfold update. simpl. rewrite Hst. exists m'.
  split; [reflexivity|]. split; [exact Ht|].
  unfold mem_store in Hst. simpl in Hst. rewrite Hb in Hst.
  destruct (decide _); [|discriminate]. injection Hst as <-.
  eexists. split.
  - apply list_lookup_insert_eq. by eapply lookup_lt_Some.
  - by rewrite length_insert.
Qed.

Section MainFacts.

Variable atoi_overflow : Z -> Z.

(** Lines 156-167 print the verdict of [validate_ip] on the string in
    the buffer and leave the memory as it is. *)
Lemma report_spec w ip_input cand :
  mem_string (st_mem (w_state w)) ip_input = Some cand ->
  (length cand <= 99)%nat ->
  exists st',
    report atoi_overflow ip_input w =
    Some (tt, World st' (w_stdin w)
                (w_stdout w ++ text "Result: '" ++ cand ++ text "' is " ++
                 if verdict atoi_overflow cand =? 0
                 then line "INVALID" ++
                      line "Note: Valid IPv4 format is xxx.xxx.xxx.xxx where each xxx is 0-255" ++
                      line "      Examples: 192.168.1.1, 10.0.0.1, 255.255.255.0" ++
                      line "      Invalid examples: 256.1.1.1, 192.168.01.1, 192.168.1"
                 else line "VALID")) /\
    st_mem st' = st_mem (w_state w).
Proof.
  intros Hc Hlen. destruct w as [st input out]. simpl in *.
  assert (Hs : c_string st ip_input cand).
  { split; [exact Hc|]. unfold UINT_MAX. lia. }
  destruct (validate_ip_refines atoi_overflow st ip_input cand Hs)
    as [o Ho].
  unfold report, io_bind, on_state. cbn [w_state w_stdin w_stdout].
  rewrite Ho. unfold lift. cbn [w_state w_stdin w_stdout st_mem].
  rewrite Hc.
  exists (State (st_mem st) o
                (atoi_log st ++ atoi_calls atoi_overflow cand)).
  split; [|reflexivity].
  destruct (verdict atoi_overflow cand =? 0); unfold printf, io_ret;
    cbn [w_state w_stdin w_stdout]; rewrite <- ?app_assoc; reflexivity.
Qed.

End MainFacts.

Section MainLoop.

Variable atoi_overflow : Z -> Z.

(** One turn of the loop with input left: the candidate is what [fgets]
    took, up to its first NUL and without a final newline; the answer
    is the first character after white space, and one more character is
    dropped after it. *)
Lemma main_iteration_reads w ip_input choice c r :
  buffer_at w ip_input -> w_stdin w = c :: r ->
  let cand := chomp (until_nul (fgets_line 99 (c :: r)).1) in
  let rest := skip_space (fgets_line 99 (c :: r)).2 in
  exists st',
    main_iteration atoi_overflow ip_input choice w =
    Some (match rest with [] => choice | x :: _ => x end,
          World st' (match rest with [] => [] | _ :: r' => tl r' end)
                (w_stdout w ++
                 (if verdict atoi_overflow cand =? 0
                  then invalid_text cand else valid_text cand) ++ [NL])) /\
    buffer_at (World st' [] []) ip_input.
Proof.
  intros Hbuf Hin cand rest. destruct w as [st input out].
  simpl in Hin. subst input.
  set (w1 := World st (c :: r)
                   (out ++ text "Enter an IP address to validate: ")).
  destruct (fgets_spec w1 ip_input c r Hbuf eq_refl) as
    (m2 & Hfgets & Hs2 & b2 & Hb2 & Hl2).
  set (w2 := World (set_mem (w_state w1) m2) (fgets_line 99 (c :: r)).2
                   (w_stdout w1)) in *.
  assert (Hbuf2 : buffer_at w2 ip_input).
  { split; [apply Hbuf|]. by exists b2. }
  pose proof (fgets_line_length 99 (c :: r)) as Hlen.
  pose proof (until_nul_length (fgets_line 99 (c :: r)).1) as Hlen'.
  destruct (strip_newline_spec w2 ip_input _ Hbuf2 Hs2) as
    (m3 & Hstrip & Hs3 & b3 & Hb3 & Hl3); [lia|].
  set (w3 := World (set_mem (w_state w2) m3) (w_stdin w2) (w_stdout w2))
    in *.
  pose proof (chomp_length (until_nul (fgets_line 99 (c :: r)).1)) as Hlc.
  destruct (report_spec atoi_overflow w3 ip_input cand Hs3) as
    (st4 & Hreport & Hm4); [unfold cand; lia|].
  exists st4. split.
  - unfold main_iteration. unfold io_bind at 1. unfold printf at 1.
    cbn [w_state w_stdin w_stdout]. fold w1.
    unfold io_bind at 1. rewrite Hfgets.
    unfold io_bind at 1. unfold io_bind at 1. rewrite Hstrip.
    rewrite Hreport.
    unfold io_bind, printf, scanf_space_c, getchar, io_ret.
    subst w3 w2 w1. cbn [w_state w_stdin w_stdout]. fold rest.
    unfold invalid_text, valid_text.
    destruct rest as [|x [|y r']]; cbn [w_state w_stdin w_stdout tl];
      destruct (verdict atoi_overflow cand =? 0);
      do 2 f_equal; f_equal; rewrite <- ?app_assoc; simpl;
      rewrite <- ?app_assoc; reflexivity.
  - split; [apply Hbuf|]. exists b3. simpl in Hm4 |- *. by rewrite Hm4.
Qed.

(** One turn of the loop at the end of the input: nothing is read, the
    buffer is not used, and [choice] keeps its value. *)
Lemma main_iteration_eof w ip_input choice :
  w_stdin w = [] ->
  main_iteration atoi_overflow ip_input choice w =
  Some (choice, World (w_state w) [] (w_stdout w ++ eof_text ++ [NL])).
Proof.
  intros Hin. destruct w as [st input out]. simpl in Hin. subst input.
  unfold main_iteration, io_bind, printf, fgets, scanf_space_c, getchar,
    io_ret, eof_text.
  cbn [w_state w_stdin w_stdout skip_space].
  do 3 f_equal. rewrite <- ?app_assoc. simpl. by rewrite <- ?app_assoc.
Qed.

End MainLoop.

(** ** Properties of main *)

Lemma typed_line_read l rest :
  typed_line l ->
  fgets_line 99 (l ++ NL :: rest) = (l ++ [NL], rest) /\
  chomp (until_nul (l ++ [NL])) = l.
Proof.
  intros [Hl Hlen]. split.
  - apply fgets_line_whole; [|lia].
    eapply Forall_impl; [exact Hl|]. by intros c [_ H].
  - rewrite until_nul_id; [apply chomp_newline|].
    apply Forall_app. split.
    + eapply Forall_impl; [exact Hl|]. by intros c [H _].
    + by repeat constructor.
Qed.

Section MainProperties.

Variable atoi_overflow : Z -> Z.

Lemma verdict_canonical_iff s :
  verdict atoi_overflow s = 1 <-> canonical_quad s.
Proof.
  split; [apply verdict_canonical|].
  intros (a & b & c & d & (Ha & Hb & Hc & Hd) & ->). by apply verdict_dotted.
Qed.

Lemma verdict_eqb_0 s :
  (verdict atoi_overflow s =? 0) = negb (verdict atoi_overflow s =? 1).
Proof. by destruct (verdict_bool atoi_overflow s) as [-> | ->]. Qed.

(** The loop never faults once the buffer is there. *)
Lemma main_loop_safe fuel ip_input :
  forall choice w,
    buffer_at w ip_input ->
    main_loop atoi_overflow fuel ip_input choice w <> Fault.
Proof.
  induction fuel as [|fuel IH]; intros choice w Hbuf; simpl; [discriminate|].
  destruct (w_stdin w) as [|c r] eqn:Hin.
  - rewrite (main_iteration_eof atoi_overflow w ip_input choice Hin).
    destruct (again choice); [|discriminate].
    apply IH. destruct w. exact Hbuf.
  - destruct (main_iteration_reads atoi_overflow w ip_input choice c r
                Hbuf Hin) as (st' & Hrun & Hbuf').
    rewrite Hrun. destruct (again _); [|discriminate].
    apply IH. exact Hbuf'.
Qed.

(** X5: [main] never steps outside an array ([ip_input], and the
    [ip_copy] and [temp] of [validate_ip]) and never reads a byte of an
    array that was not written, whatever comes on standard input (lines
    of any length, NUL bytes, an early end) and whatever [choice] holds
    at first.  The variable [choice] is no array and not in the store:
    that it can be read without a value is another matter, shown with
    the sessions below. *)
Theorem main_never_faults garbage fuel w :
  main atoi_overflow garbage fuel w <> Fault.
Proof.
  unfold main, io_bind, on_state, alloca, printf, io_ret. simpl.
  apply main_loop_safe. split; [reflexivity|].
  exists (replicate 100 None). simpl. split.
  - rewrite lookup_app_r by lia. by rewrite Nat.sub_diag.
  - reflexivity.
Qed.

(** X6: a turn of the loop on a typed line validates exactly that line,
    its newline removed: it shows it as VALID when it is a canonical
    dotted quad and as INVALID, with the notes, when it is not; the
    answer is the first character after white space, and the character
    after the answer is dropped. *)
Theorem main_iteration_typed_line w ip_input choice l rest :
  buffer_at w ip_input ->
  typed_line l ->
  w_stdin w = l ++ NL :: rest ->
  exists answer w',
    main_iteration atoi_overflow ip_input choice w = Some (answer, w') /\
    (canonical_quad l -> w_stdout w' = w_stdout w ++ valid_text l ++ [NL]) /\
    (~ canonical_quad l ->
     w_stdout w' = w_stdout w ++ invalid_text l ++ [NL]) /\
    (answer, w_stdin w') =
    match skip_space rest with
    | [] => (choice, [])
    | x :: r' => (x, tl r')
    end.
Proof.
  intros Hbuf Hl Hin.
  destruct (typed_line_read l rest Hl) as [Hread Hcand].
  destruct (l ++ NL :: rest) as [|c r] eqn:Hcr; [by destruct l|].
  destruct (main_iteration_reads atoi_overflow w ip_input choice c r
              Hbuf Hin) as (st' & Hrun & _).
  rewrite Hread in Hrun. simpl in Hrun. rewrite Hcand in Hrun.
  eexists _, _. split; [exact Hrun|]. simpl.
  rewrite verdict_eqb_0. split; [|split].
  - intros Hc%verdict_canonical_iff. by rewrite Hc.
  - intros Hc. destruct (verdict_bool atoi_overflow l) as [Hv|Hv].
    + by rewrite Hv.
    + by apply verdict_canonical_iff in Hv.
  - by destruct (skip_space rest).
Qed.

(** X7: a line of 99 characters or more is cut after the 99th: the
    turn shows those 99 characters as INVALID, and takes the answer from
    what is left of the same line. *)
Theorem main_iteration_long_line w ip_input choice l rest :
  buffer_at w ip_input ->
  Forall (fun c => c <> NUL /\ c <> NL) l -> length l = 99%nat ->
  w_stdin w = l ++ rest ->
  exists answer w',
    main_iteration atoi_overflow ip_input choice w = Some (answer, w') /\
    w_stdout w' = w_stdout w ++ invalid_text l ++ [NL] /\
    (answer, w_stdin w') =
    match skip_space rest with
    | [] => (choice, [])
    | x :: r' => (x, tl r')
    end.
Proof.
  intros Hbuf Hl Hlen Hin.
  assert (Hread : fgets_line 99 (l ++ rest) = (l, rest)).
  { rewrite <- Hlen. apply fgets_line_cut.
    eapply Forall_impl; [exact Hl|]. by intros c [_ H]. }
  assert (Hcand : chomp (until_nul l) = l).
  { rewrite until_nul_id
      by (eapply Forall_impl; [exact Hl|]; by intros c [H _]).
    apply chomp_no_newline. intros Hlast.
    apply last_Some in Hlast as [l' ->].
    apply Forall_app in Hl as [_ Hl]. inversion Hl as [|? ? [_ H] _]; subst.
    contradiction. }
  destruct (l ++ rest) as [|c r] eqn:Hcr; [by destruct l|].
  destruct (main_iteration_reads atoi_overflow w ip_input choice c r
              Hbuf Hin) as (st' & Hrun & _).
  rewrite Hread in Hrun. simpl in Hrun. rewrite Hcand in Hrun.
  assert (Hv : verdict atoi_overflow l = 0).
  { apply verdict_rejects. intros (H & _)%verdict_accepts. lia. }
  rewrite Hv in Hrun. simpl in Hrun.
  eexists _, _. split; [exact Hrun|]. simpl. split; [reflexivity|].
  by destruct (skip_space rest).
Qed.

End MainProperties.

Lemma again_not_space a : again a = true -> isspace a = false.
Proof.
  unfold again. intros [H|H]%orb_true_iff;
    apply Ascii.eqb_eq in H; by subst.
Qed.

Section Sessions.

Variable atoi_overflow : Z -> Z.

(** A turn of a session: the line is read and shown, the answer taken,
    and the input is left at the next turn. *)
Lemma main_iteration_turn w ip_input choice l a rest :
  buffer_at w ip_input ->
  typed_line l -> isspace a = false ->
  w_stdin w = l ++ NL :: a :: NL :: rest ->
  exists st',
    main_iteration atoi_overflow ip_input choice w =
    Some (a, World st' rest
               (w_stdout w ++
                (if verdict atoi_overflow l =? 0
                 then invalid_text l else valid_text l) ++ [NL])) /\
    buffer_at (World st' [] []) ip_input.
Proof.
  intros Hbuf Hl Ha Hin.
  destruct (typed_line_read l (a :: NL :: rest) Hl) as [Hread Hcand].
  destruct (l ++ NL :: a :: NL :: rest) as [|c r] eqn:Hcr; [by destruct l|].
  destruct (main_iteration_reads atoi_overflow w ip_input choice c r
              Hbuf Hin) as (st' & Hrun & Hbuf').
  rewrite Hread in Hrun. simpl in Hrun. rewrite Hcand, Ha in Hrun.
  by exists st'.
Qed.

Lemma accepts_verdict accepts l :
  (forall s, accepts s = true <-> canonical_quad s) ->
  (if verdict atoi_overflow l =? 0 then invalid_text l else valid_text l) =
  (if accepts l then valid_text l else invalid_text l).
Proof.
  intros Hacc. rewrite (verdict_eqb_0 atoi_overflow).
  destruct (accepts l) eqn:Hal.
  - apply Hacc, (verdict_canonical_iff atoi_overflow) in Hal. by rewrite Hal.
  - destruct (verdict_bool atoi_overflow l) as [Hv|Hv]; [by rewrite Hv|].
    apply (verdict_canonical_iff atoi_overflow), Hacc in Hv. congruence.
Qed.

Lemma main_loop_session accepts ip_input init :
  (forall s, accepts s = true <-> canonical_quad s) ->
  forall fuel choice w l a,
    buffer_at w ip_input ->
    Forall (fun t => typed_line t.1 /\ again t.2 = true) init ->
    typed_line l -> isspace a = false -> again a = false ->
    w_stdin w = session_input (init ++ [(l, a)]) ->
    (length init < fuel)%nat ->
    exists st',
      main_loop atoi_overflow fuel ip_input choice w =
      Exit 0 (World st' []
                (w_stdout w ++
                 session_output accepts (init ++ [(l, a)]) ++
                 goodbye_text)).
Proof.
  intros Hacc. induction init as [|[l0 a0] init IH];
    intros fuel choice w l a Hbuf Hinit Hl Ha Hstop Hin Hfuel;
    (destruct fuel as [|fuel]; [simpl in Hfuel; lia|]); simpl in Hin |- *.
  - destruct (main_iteration_turn w ip_input choice l a []
                Hbuf Hl Ha Hin) as (st' & Hrun & _).
    rewrite Hrun, Hstop, (accepts_verdict accepts l Hacc).
    unfold printf. cbn [w_state w_stdin w_stdout].
    exists st'. do 2 f_equal. fold goodbye_text.
    rewrite <- !app_assoc. reflexivity.
  - inversion Hinit as [|? ? [Hl0 Ha0] Hinit']; subst. simpl in Hl0, Ha0.
    destruct (main_iteration_turn w ip_input choice l0 a0
                (session_input (init ++ [(l, a)]))
                Hbuf Hl0 (again_not_space _ Ha0) Hin)
      as (st' & Hrun & Hbuf').
    rewrite Hrun, Ha0, (accepts_verdict accepts l0 Hacc).
    match goal with
    | |- context [main_loop _ _ _ _ ?w'] =>
        destruct (IH fuel a0 w' l a Hbuf' Hinit' Hl Ha Hstop eq_refl)
          as (st'' & Hrest); [simpl in Hfuel; lia|]
    end.
    rewrite Hrest. exists st''. cbn [w_state w_stdin w_stdout].
    do 2 f_equal. rewrite <- !app_assoc. reflexivity.
Qed.

(** X8: a session of typed lines, each answered with y or Y but the
    last, answered with another character: [main] exits with status 0,
    has read all the input, and has shown the banner, for each line in
    turn VALID or INVALID as the line is a canonical dotted quad or not,
    and the closing line. *)
Theorem main_session accepts garbage fuel w init l a :
  (forall s, accepts s = true <-> canonical_quad s) ->
  Forall (fun t => typed_line t.1 /\ again t.2 = true) init ->
  typed_line l -> isspace a = false -> again a = false ->
  w_stdin w = session_input (init ++ [(l, a)]) ->
  (length init < fuel)%nat ->
  exists st',
    main atoi_overflow garbage fuel w =
    Exit 0 (World st' []
              (w_stdout w ++ banner_text ++
               session_output accepts (init ++ [(l, a)]) ++
               goodbye_text)).
Proof.
  intros Hacc Hinit Hl Ha Hstop Hin Hfuel.
  unfold main, io_bind, on_state, alloca, printf, io_ret.
  cbn [w_state w_stdin w_stdout].
  set (ip_input := Ptr (length (st_mem (w_state w))) 0).
  match goal with
  | |- context [main_loop _ _ _ _ ?w'] => set (w1 := w')
  end.
  assert (Hbuf : buffer_at w1 ip_input).
  { split; [reflexivity|]. exists (replicate 100 None). simpl. split.
    - rewrite lookup_app_r by lia. by rewrite Nat.sub_diag.
    - reflexivity. }
  destruct (main_loop_session accepts ip_input init Hacc fuel garbage w1
              l a Hbuf Hinit Hl Ha Hstop Hin Hfuel) as (st' & Hrun).
  rewrite Hrun. exists st'. do 2 f_equal. subst w1.
  cbn [w_state w_stdin w_stdout]. unfold banner_text.
  rewrite <- !app_assoc. reflexivity.
Qed.

(** At the end of the input, with y or Y in [choice], the loop goes on
    for ever. *)
Lemma main_loop_eof fuel ip_input :
  forall choice w,
    w_stdin w = [] -> again choice = true ->
    main_loop atoi_overflow fuel ip_input choice w = OutOfFuel.
Proof.
  induction fuel as [|fuel IH]; intros choice w Hin Hy; simpl;
    [reflexivity|].
  rewrite (main_iteration_eof atoi_overflow w ip_input choice Hin), Hy.
  by apply IH.
Qed.

Lemma main_loop_all_yes ip_input turns :
  forall fuel choice w,
    buffer_at w ip_input ->
    Forall (fun t => typed_line t.1 /\ again t.2 = true) turns ->
    w_stdin w = session_input turns ->
    (turns = [] -> again choice = true) ->
    main_loop atoi_overflow fuel ip_input choice w = OutOfFuel.
Proof.
  induction turns as [|[l a] turns IH];
    intros fuel choice w Hbuf Hturns Hin Hchoice.
  - apply main_loop_eof; [exact Hin | by apply Hchoice].
  - destruct fuel as [|fuel]; [reflexivity|]. simpl in Hin |- *.
    inversion Hturns as [|? ? [Hl Ha] Hturns']; subst. simpl in Hl, Ha.
    destruct (main_iteration_turn w ip_input choice l a
                (session_input turns) Hbuf Hl (again_not_space _ Ha) Hin)
      as (st' & Hrun & Hbuf').
    rewrite Hrun, Ha. apply IH; try assumption.
    + reflexivity.
    + by intros _.
Qed.

(** X9: when every question is answered with y or Y and the input
    then ends, [main] never exits: at the end of the input [scanf]
    leaves [choice] as it is, and the loop turns for ever, whatever the
    number of turns allowed. *)
Theorem main_hangs_at_eof garbage fuel w turns :
  turns <> [] ->
  Forall (fun t => typed_line t.1 /\ again t.2 = true) turns ->
  w_stdin w = session_input turns ->
  main atoi_overflow garbage fuel w = OutOfFuel.
Proof.
  intros Hne Hturns Hin.
  unfold main, io_bind, on_state, alloca, printf, io_ret.
  cbn [w_state w_stdin w_stdout].
  apply (main_loop_all_yes _ turns); try assumption; [|contradiction].
  split; [reflexivity|]. exists (replicate 100 None). simpl. split.
  - rewrite lookup_app_r by lia. by rewrite Nat.sub_diag.
  - reflexivity.
Qed.

(** X10: on an empty input [main] tests [choice] without ever having
    given it a value: it exits with status 0 after one turn, having
    shown the error message, when the character [choice] happens to hold
    is not y or Y, and never exits when it is. *)
Theorem main_empty_input garbage fuel w :
  w_stdin w = [] ->
  (again garbage = true ->
   main atoi_overflow garbage fuel w = OutOfFuel) /\
  (again garbage = false ->
   exists st',
     main atoi_overflow garbage (S fuel) w =
     Exit 0 (World st' []
               (w_stdout w ++ banner_text ++ eof_text ++ [NL] ++
                goodbye_text))).
Proof.
  intros Hin. unfold main, io_bind, on_state, alloca, printf, io_ret.
  cbn [w_state w_stdin w_stdout]. split; intros Hg.
  - by apply main_loop_eof.
  - cbn [main_loop]. rewrite main_iteration_eof by exact Hin.
    rewrite Hg. unfold printf. cbn [w_state w_stdin w_stdout].
    eexists. do 2 f_equal. unfold banner_text, goodbye_text.
    rewrite <- !app_assoc. reflexivity.
Qed.

End Sessions.

(** ** These properties at work *)

Lemma is_canonical_quad_spec s :
  is_canonical_quad s = true <-> canonical_quad s.
Proof.
  unfold is_canonical_quad. rewrite Z.eqb_eq.
  apply verdict_canonical_iff.
Qed.

Lemma validate_ip_accepts_only_canonical_witness :
  exists a b c d,
    (0 <= a <= 255 /\ 0 <= b <= 255 /\ 0 <= c <= 255 /\ 0 <= d <= 255) /\
    list_ascii_of_string "10.0.0.1" = dotted a b c d.
Proof.
  apply (validate_ip_accepts_only_canonical atoi_wraps
           (store_of "10.0.0.1") candidate).
  - holds_string.
  - eexists. vm_compute. reflexivity.
Defined.

Lemma validate_ip_atoi_independent_witness :
  exists v,
    returns (validate_ip atoi_wraps (Some candidate)
               (store_of "4294967296.1.1.")) v /\
    returns (validate_ip (fun _ => 7) (Some candidate)
               (store_of "4294967296.1.1.")) v.
Proof.
  apply (validate_ip_atoi_independent atoi_wraps (fun _ => 7)
           (store_of "4294967296.1.1.") candidate
           (list_ascii_of_string "4294967296.1.1.")).
  holds_string.
Defined.

Lemma validate_ip_gate_leaves_state_witness :
  validate_ip atoi_wraps (Some candidate) (store_of "1.2.3.4.5") =
  Some (0, store_of "1.2.3.4.5").
Proof.
  apply (validate_ip_gate_leaves_state atoi_wraps (store_of "1.2.3.4.5")
           candidate (list_ascii_of_string "1.2.3.4.5")).
  - holds_string.
  - reflexivity.
Defined.

Lemma validate_ip_clobbers_strtok_witness :
  exists v st',
    validate_ip atoi_wraps (Some candidate) (store_of "192.168.1.1") =
    Some (v, st') /\
    strtok None ["."%char] st' = None.
Proof.
  apply (validate_ip_clobbers_strtok atoi_wraps (store_of "192.168.1.1")
           candidate (list_ascii_of_string "192.168.1.1")).
  - holds_string.
  - reflexivity.
Defined.

Lemma main_iteration_typed_line_witness :
  exists answer w',
    main_iteration atoi_wraps candidate "n"%char
      (buffer_world (session_input [(text "10.0.0.1", "y"%char)])) =
    Some (answer, w') /\
    (canonical_quad (text "10.0.0.1") ->
     w_stdout w' = [] ++ valid_text (text "10.0.0.1") ++ [NL]) /\
    (~ canonical_quad (text "10.0.0.1") ->
     w_stdout w' = [] ++ invalid_text (text "10.0.0.1") ++ [NL]) /\
    (answer, w_stdin w') = ("y"%char, []).
Proof.
  apply (main_iteration_typed_line atoi_wraps
           (buffer_world (session_input [(text "10.0.0.1", "y"%char)]))
           candidate "n"%char (text "10.0.0.1") ["y"%char; NL]).
  - has_buffer.
  - typed.
  - reflexivity.
Defined.

Lemma main_iteration_long_line_witness :
  exists answer w',
    main_iteration atoi_wraps candidate "n"%char
      (buffer_world (repeat "1"%char 99 ++ text "yes" ++ [NL])) =
    Some (answer, w') /\
    w_stdout w' = [] ++ invalid_text (repeat "1"%char 99) ++ [NL] /\
    (answer, w_stdin w') = ("y"%char, [ "s"%char; NL]).
Proof.
  apply (main_iteration_long_line atoi_wraps
           (buffer_world (repeat "1"%char 99 ++ text "yes" ++ [NL]))
           candidate "n"%char (repeat "1"%char 99) (text "yes" ++ [NL])).
  - has_buffer.
  - simpl. repeat constructor; discriminate.
  - reflexivity.
  - reflexivity.
Defined.

Lemma main_session_witness :
  exists st',
    main atoi_wraps "y"%char 2
      (world_of (session_input [(text "256.1.1.1", "y"%char);
                                (text "10.0.0.1", "n"%char)])) =
    Exit 0 (World st' []
              ([] ++ banner_text ++
               session_output is_canonical_quad
                 ([(text "256.1.1.1", "y"%char)] ++
                  [(text "10.0.0.1", "n"%char)]) ++
               goodbye_text)).
Proof.
  apply (main_session atoi_wraps is_canonical_quad "y"%char 2
           (world_of (session_input [(text "256.1.1.1", "y"%char);
                                     (text "10.0.0.1", "n"%char)]))
           [(text "256.1.1.1", "y"%char)] (text "10.0.0.1") "n"%char).
  - exact is_canonical_quad_spec.
  - repeat constructor; simpl; try discriminate; lia.
  - typed.
  - reflexivity.
  - reflexivity.
  - reflexivity.
  - simpl. lia.
Defined.

Lemma main_hangs_at_eof_witness :
  main atoi_wraps "n"%char 1000
    (world_of (session_input [(text "10.0.0.1", "y"%char)])) = OutOfFuel.
Proof.
  apply (main_hangs_at_eof atoi_wraps "n"%char 1000
           (world_of (session_input [(text "10.0.0.1", "y"%char)]))
           [(text "10.0.0.1", "y"%char)]).
  - discriminate.
  - repeat constructor; simpl; try discriminate; lia.
  - reflexivity.
Defined.

Lemma main_empty_input_witness :
  (again "Y"%char = true ->
   main atoi_wraps "Y"%char 5 (world_of []) = OutOfFuel) /\
  (again "Y"%char = false ->
   exists st',
     main atoi_wraps "Y"%char 6 (world_of []) =
     Exit 0 (World st' []
               ([] ++ banner_text ++ eof_text ++ [NL] ++ goodbye_text))).
Proof.
  apply (main_empty_input atoi_wraps "Y"%char 5 (world_of [])).
  reflexivity.
Defined.

(** ** The length gate and lengths that 32 bits do not hold *)

(** Storing more characters than the block has left is undefined. *)
Lemma mem_write_overrun cs :
  forall (m : mem) b o l,
    m !! b = Some l -> (o <= length l)%nat ->
    (length l < o + length cs)%nat ->
    mem_write m (Ptr b o) cs = None.
Proof.
  induction cs as [|c cs IH]; intros m b o l Hb Ho Hlen; simpl in *; [lia|].
  unfold mem_store. simpl. rewrite Hb.
  destruct (decide (o < length l)%nat) as [Hlt|]; [|reflexivity].
  apply (IH _ b (o + 1)%nat (<[o:=Some c]> l)).
  - apply list_lookup_insert_eq. by eapply lookup_lt_Some.
  - rewrite length_insert. lia.
  - rewrite length_insert. lia.
Qed.

(** A candidate of 2^32 + 7 characters has [len = 7]: it is let through
    the length gate, and [strcpy] then stores past the end of
    [ip_copy]. *)
Lemma validate_ip_wraps_length atoi_overflow st ip s :
  mem_string (st_mem st) ip = Some s ->
  Z.of_nat (length s) = 2 ^ 32 + 7 ->
  validate_ip atoi_overflow (Some ip) st = None.
Proof.
  intros Hs Hlen. destruct st as [m o log]. cbn [st_mem] in Hs.
  assert (Hint : to_int (2 ^ 32 + 7) = 7) by reflexivity.
  unfold validate_ip, call, validate_ip_body.
  unfold bind at 1. unfold alloca at 1, set_mem.
  cbn [st_mem strtok_olds atoi_log].
  unfold bind at 1. unfold strlen, lift. cbn [st_mem].
  rewrite (mem_string_app _ _ _ _ Hs). cbn [fmap option_fmap option_map].
  rewrite Hlen, Hint.
  change ((7 <? 7) || (7 >? 15)) with false. cbv iota.
  unfold bind at 1. unfold strcpy, bind, lift, update. cbn [st_mem].
  rewrite (mem_string_app _ _ _ _ Hs).
  rewrite (mem_write_overrun (s ++ [NUL]) _ (length m) 0
             (replicate 16 None)).
  - reflexivity.
  - cbn [st_mem]. rewrite lookup_app_r by lia. by rewrite Nat.sub_diag.
  - lia.
  - rewrite length_replicate, length_app. simpl. lia.
Qed.

Lemma huge_length_value : Z.of_nat (length huge_string) = 2 ^ 32 + 7.
Proof.
  unfold huge_string. rewrite length_replicate.
  unfold huge_length. apply Z2Nat.id. lia.
Qed.

Lemma huge_string_at :
  mem_string (st_mem huge_store) candidate = Some huge_string.
Proof.
  apply (mem_string_fresh [] huge_string []).
  apply Forall_replicate. discriminate.
Qed.

(** C2: it is not so that [validate_ip] returns on every candidate: on
    the candidate of 2^32 + 7 digits, a NUL-terminated string as any
    other, the call is undefined: [int len = strlen (ip)] is 7, the
    length gate lets it through, and [strcpy] stores past the 16 bytes
    of [ip_copy]. *)
Theorem validate_ip_overruns_copy atoi_overflow :
  mem_string (st_mem huge_store) candidate = Some huge_string /\
  to_int (Z.of_nat (length huge_string)) = 7 /\
  validate_ip atoi_overflow (Some candidate) huge_store = None.
Proof.
  split; [exact huge_string_at|]. split.
  - by rewrite huge_length_value.
  - exact (validate_ip_wraps_length atoi_overflow huge_store candidate
             huge_string huge_string_at huge_length_value).
Qed.

(** C3: it is not so that every candidate of more than 15 characters
    is rejected: the candidate of 2^32 + 7 digits is longer than 15
    characters and [validate_ip] does not return 0 on it (it does not
    return at all). *)
Theorem validate_ip_length_gate_passed atoi_overflow :
  15 < Z.of_nat (length huge_string) /\
  ~ returns (validate_ip atoi_overflow (Some candidate) huge_store) 0.
Proof.
  split.
  - rewrite huge_length_value. lia.
  - intros [st' Hret].
    rewrite (validate_ip_wraps_length atoi_overflow huge_store candidate
               huge_string huge_string_at huge_length_value) in Hret.
    discriminate.
Qed.
